(** * Partition-module configuration (src/modules/partition/Config.cpp)

    A shallow embedding of the configuration core of the Calamares partition
    module: the two enum name tables, the swap-choice resolver
    [getSwapChoices], the tie-break [pickOne], the setters of the [Config]
    object, [setConfigurationMap] and the two publishers into GlobalStorage.

    Conventions of the embedding.
    - [QSet<SwapChoice>] is a [gset SwapChoice]; [QVariantMap] and the
      GlobalStorage are [gmap string QVariant].
    - A C++ pointer that may be null is an [option]; dereferencing a null
      pointer (or the end iterator of a set) is a fault of the computation
      ([None] in the monad [M], resp. in [option]).
    - [Q_EMIT] appends to the trace of emitted signals of the [World].
    - The text streamed to [cWarning()] / [cError()] is diagnostics only and
      is left out of the model; no control flow depends on it. *)

From Stdlib Require Import ZArith Floats.PrimFloat.
From stdpp Require Import gmap strings list fin_maps.

Local Open Scope Z_scope.

(** ** Enumerations (declared in Config.h) *)

Inductive InstallChoice := NoChoice | Alongside | Erase | Replace | Manual.
Inductive SwapChoice := NoSwap | SmallSwap | FullSwap | ReuseSwap | SwapFile.

#[global] Instance InstallChoice_eq_dec : EqDecision InstallChoice.
Proof. solve_decision. Defined.
#[global] Instance SwapChoice_eq_dec : EqDecision SwapChoice.
Proof. solve_decision. Defined.
#[global] Instance InstallChoice_inhabited : Inhabited InstallChoice := populate NoChoice.
#[global] Instance SwapChoice_inhabited : Inhabited SwapChoice := populate NoSwap.

(** Modelled from the spec: the enum declarations live in Config.h, which is
    not among the sources.  The enumerators are numbered from 0 in the order
    in which the data model lists them; Config.cpp itself only relies on
    [NoChoice]/[NoSwap] being the least and [Manual]/[SwapFile] the greatest
    value (the range checks of the [int] setters). *)
Definition InstallChoice_to_int (c : InstallChoice) : Z :=
  match c with
  | NoChoice => 0 | Alongside => 1 | Erase => 2 | Replace => 3 | Manual => 4
  end.

Definition SwapChoice_to_int (c : SwapChoice) : Z :=
  match c with
  | NoSwap => 0 | SmallSwap => 1 | FullSwap => 2 | ReuseSwap => 3 | SwapFile => 4
  end.

(** [static_cast< E >( c )]: defined on the values of the enumeration. *)
Definition InstallChoice_of_int (c : Z) : option InstallChoice :=
  match c with
  | 0 => Some NoChoice | 1 => Some Alongside | 2 => Some Erase
  | 3 => Some Replace | 4 => Some Manual | _ => None
  end.

Definition SwapChoice_of_int (c : Z) : option SwapChoice :=
  match c with
  | 0 => Some NoSwap | 1 => Some SmallSwap | 2 => Some FullSwap
  | 3 => Some ReuseSwap | 4 => Some SwapFile | _ => None
  end.

#[global] Instance SwapChoice_countable : Countable SwapChoice.
Proof.
  apply (inj_countable SwapChoice_to_int SwapChoice_of_int).
  by intros [].
Defined.

Abbreviation SwapChoiceSet := (gset SwapChoice).

(** ** Values of the configuration map and of the shared store *)

(** Modelled from the spec: a configuration value is a string, a string list,
    a boolean or a number; the store also receives a nested record
    ([QVariantMap]).  [VInvalid] is the default-constructed [QVariant]. *)
#[warnings="-register-all"]
Inductive QVariant :=
| VInvalid
| VBool (b : bool)
| VDouble (d : float)
| VString (s : string)
| VStringList (l : list string)
| VMap (m : gmap string QVariant).

Abbreviation QVariantMap := (gmap string QVariant).
Abbreviation GlobalStorage := (gmap string QVariant).

(** [QMap::contains] / [GlobalStorage::contains]. *)
Definition contains (m : gmap string QVariant) (key : string) : bool :=
  bool_decide (is_Some (m !! key)).

(** [QVariant::toStringList]: a string list as it is, a single string as a
    one-element list, anything else as the empty list. *)
Definition toStringList (v : QVariant) : list string :=
  match v with
  | VStringList l => l
  | VString s => [s]
  | _ => []
  end.

(** [configurationMap[ key ]] on a const map. *)
Definition at_key (m : QVariantMap) (key : string) : QVariant :=
  default VInvalid (m !! key).

Module CalamaresUtils.

(** Modelled from the spec: utils/Variant.h is not among the sources.  Each
    getter yields the value stored under [key] when it has the asked type
    and the default [d] otherwise. *)
Definition getBool (m : QVariantMap) (key : string) (d : bool) : bool :=
  match m !! key with Some (VBool b) => b | _ => d end.

Definition getString (m : QVariantMap) (key : string) (d : string) : string :=
  match m !! key with Some (VString s) => s | _ => d end.

Definition getDouble (m : QVariantMap) (key : string) (d : float) : float :=
  match m !! key with Some (VDouble x) => x | _ => d end.

Definition getStringList (m : QVariantMap) (key : string) (d : list string)
  : list string :=
  match m !! key with Some (VStringList l) => l | _ => d end.

End CalamaresUtils.

(** ** Enum-name tables *)

Module NamedEnumTable.

Section Table.
Context {T : Type} `{EqDecision T, Inhabited T}.

Definition t := list (string * T).

(** Modelled from the spec: utils/NamedEnum.h is not among the sources.
    Lookup by name returns the value of the first entry with that name
    and a success flag; an unknown name yields the value of the first
    entry of the table with the flag cleared. *)
Fixpoint find_entry (table : t) (name : string) : option T :=
  match table with
  | [] => None
  | (n, v) :: rest => if String.eqb name n then Some v else find_entry rest name
  end.

Definition find (table : t) (name : string) : T * bool :=
  match find_entry table name with
  | Some v => (v, true)
  | None => (default inhabitant (snd <$> head table), false)
  end.

(** Modelled from the spec: lookup by value returns the name of the first
    entry holding that value (and the empty string, flag cleared, when
    there is none). *)
Fixpoint find_name (table : t) (v : T) : option string :=
  match table with
  | [] => None
  | (n, v') :: rest => if decide (v = v') then Some n else find_name rest v
  end.

Definition find_value (table : t) (v : T) : string * bool :=
  match find_name table v with
  | Some n => (n, true)
  | None => (EmptyString, false)
  end.
End Table.

End NamedEnumTable.

Definition installChoiceNames : list (string * InstallChoice) :=
  [ ("none"%string, NoChoice);
    ("nochoice"%string, NoChoice);
    ("alongside"%string, Alongside);
    ("erase"%string, Erase);
    ("replace"%string, Replace);
    ("manual"%string, Manual) ].

Definition swapChoiceNames : list (string * SwapChoice) :=
  [ ("none"%string, NoSwap);
    ("small"%string, SmallSwap);
    ("suspend"%string, FullSwap);
    ("reuse"%string, ReuseSwap);
    ("file"%string, SwapFile) ].

(** ** Iteration order of a QSet *)

(** [QSet] iterates in hash order, which the program does not control.  All it
    may rely on is that [begin()] of a non-empty set points at a member and
    that [begin()] of an empty set is [end()] ([None] here). *)
Class QSetOrder := {
  qbegin : SwapChoiceSet -> option SwapChoice;
  qbegin_elem : forall s x, qbegin s = Some x -> x ∈ s;
  qbegin_nonempty : forall s, s ≠ ∅ -> is_Some (qbegin s)
}.

(** One such order: the order of [elements]. *)
Definition elements_begin (s : SwapChoiceSet) : option SwapChoice :=
  head (elements s).

Lemma elements_begin_elem s x : elements_begin s = Some x -> x ∈ s.
Proof.
  unfold elements_begin. rewrite <- elem_of_elements.
  destruct (elements s) as [|y l]; intros Hx; simplify_eq/=. left.
Qed.

Lemma elements_begin_nonempty s : s ≠ ∅ -> is_Some (elements_begin s).
Proof.
  unfold elements_begin. intros Hs.
  destruct (elements s) as [|y l] eqn:E; [|by eexists].
  destruct Hs. apply elements_empty_inv in E. by apply leibniz_equiv in E.
Qed.

#[export] Instance elements_order : QSetOrder :=
  {| qbegin := elements_begin;
     qbegin_elem := elements_begin_elem;
     qbegin_nonempty := elements_begin_nonempty |}.

(** ** The tie-break [pickOne] *)

Section PickOne.
Context `{QSetOrder}.

(** [*( s.begin() )] is a fault on the end iterator, hence the [option]. *)
Definition pickOne (s : SwapChoiceSet) : option SwapChoice :=
  if (size s =? 0)%nat then Some NoSwap
  else if (size s =? 1)%nat then qbegin s
  else if bool_decide (NoSwap ∈ s) then Some NoSwap
  else (* Here, count > 1 but NoSwap is not a member. *)
    qbegin s.
End PickOne.

(** ** The swap-choice resolver *)

(** The body of [COMPLAIN_UNSUPPORTED( x )]. *)
Definition COMPLAIN_UNSUPPORTED (x : SwapChoice) (choices : SwapChoiceSet)
  : SwapChoiceSet :=
  if bool_decide (x ∈ choices) then choices ∖ {[ x ]} else choices.

(** One round of the loop over the entries of [userSwapChoices]. *)
Definition insert_named (choices : SwapChoiceSet) (item : string) : SwapChoiceSet :=
  let '(v, ok) := NamedEnumTable.find swapChoiceNames item in
  if ok then {[ v ]} ∪ choices else choices.

(** The locals [ensureSuspendToDisk] and [neverCreateSwap] are re-assigned at
    the end of the [userSwapChoices] branch and not read afterwards; those two
    dead stores are the only statements without a counterpart here. *)
Definition getSwapChoices (configurationMap : QVariantMap) : SwapChoiceSet :=
  let ensureSuspendToDisk :=
    CalamaresUtils.getBool configurationMap "ensureSuspendToDisk" true in
  let neverCreateSwap :=
    CalamaresUtils.getBool configurationMap "neverCreateSwap" false in
  let choices : SwapChoiceSet :=
    if contains configurationMap "userSwapChoices" then
      let l := toStringList (at_key configurationMap "userSwapChoices") in
      let choices := foldl insert_named ∅ l in
      if bool_decide (choices = ∅) then {[ FullSwap ]} ∪ choices else choices
    else if neverCreateSwap then {[ NoSwap ]} ∪ ∅
    else if ensureSuspendToDisk then {[ FullSwap ]} ∪ ∅
    else {[ SmallSwap ]} ∪ ∅ in
  COMPLAIN_UNSUPPORTED ReuseSwap choices.

(** ** The world outside the Config object *)

Inductive Signal :=
| installChoiceChanged (c : InstallChoice)
| swapChoiceChanged (c : SwapChoice)
| eraseModeFilesystemChanged (fs : string).

(** The job queue owns the shared store; either pointer may be null. *)
Record JobQueue := { m_storage : option GlobalStorage }.

Record World := {
  jobQueue : option JobQueue;     (* what JobQueue::instance() points at *)
  isEfiSystem : bool;             (* the answer of PartUtils::isEfiSystem() *)
  emitted : list Signal           (* the signals emitted so far, oldest first *)
}.

(** The shared store, when there is one. *)
Definition store (w : World) : option GlobalStorage :=
  jq ← jobQueue w; m_storage jq.

Definition set_store (gs : GlobalStorage) (w : World) : World :=
  {| jobQueue := Some {| m_storage := Some gs |};
     isEfiSystem := isEfiSystem w;
     emitted := emitted w |}.

(** A pointer to the one job queue, or to the one store. *)
Inductive ptr := nullptr | addr.

(** A pointer used as a condition: true when it is not null. *)
Definition non_null (p : ptr) : bool :=
  match p with nullptr => false | addr => true end.

Definition ptr_of {A} (o : option A) : ptr :=
  match o with Some _ => addr | None => nullptr end.

(** Computations over the world; [None] is a null-pointer dereference. *)
Definition M (A : Type) : Type := World -> option (A * World).

#[global] Instance M_ret : MRet M := fun A a w => Some (a, w).
#[global] Instance M_bind : MBind M := fun A B f c w =>
  match c w with
  | Some (a, w') => f a w'
  | None => None
  end.

Definition deref {A} (o : option A) : M A :=
  fun w => match o with Some a => Some (a, w) | None => None end.

(** The world after one more signal went out to the observers. *)
Definition notify (s : Signal) (w : World) : World :=
  {| jobQueue := jobQueue w; isEfiSystem := isEfiSystem w; emitted := emitted w ++ [s] |}.

Definition Q_EMIT (s : Signal) : M unit :=
  fun w => Some (tt, notify s w).

Definition PartUtils_isEfiSystem : M bool :=
  fun w => Some (isEfiSystem w, w).

(** [Calamares::JobQueue::instance()]. *)
Definition JobQueue_instance : M ptr :=
  fun w => Some (ptr_of (jobQueue w), w).

(** [jq->globalStorage()]. *)
Definition JobQueue_globalStorage (jq : ptr) : M ptr :=
  fun w =>
    match jq, jobQueue w with
    | addr, Some q => Some (ptr_of (m_storage q), w)
    | _, _ => None
    end.

(** [gs->insert( key, value )]: whole-value insert, overwriting. *)
Definition GS_insert (gs : ptr) (key : string) (value : QVariant) : M unit :=
  fun w =>
    match gs, store w with
    | addr, Some g => Some (tt, set_store (<[ key := value ]> g) w)
    | _, _ => None
    end.

(** [gs->contains( key )]. *)
Definition GS_contains (gs : ptr) (key : string) : M bool :=
  fun w =>
    match gs, store w with
    | addr, Some g => Some (contains g key, w)
    | _, _ => None
    end.

(** [JobQueue::instance() ? JobQueue::instance()->globalStorage() : nullptr] *)
Definition globalStorage_or_null : M ptr :=
  jq ← JobQueue_instance;
  if non_null jq then jq' ← JobQueue_instance; JobQueue_globalStorage jq'
  else mret nullptr.

(** ** The Global-Store publisher *)

Definition updateGlobalStorage (installChoice : InstallChoice) (swapChoice : SwapChoice)
  : M unit :=
  gs ← globalStorage_or_null;
  if non_null gs then
    let m : QVariantMap := ∅ in
    let m := <[ "install"%string :=
                VString (fst (NamedEnumTable.find_value installChoiceNames installChoice)) ]> m in
    let m := <[ "swap"%string :=
                VString (fst (NamedEnumTable.find_value swapChoiceNames swapChoice)) ]> m in
    GS_insert gs "partitionChoices" (VMap m)
  else mret tt.

(** ** The Config object *)

Record Config := {
  m_requiredStorageGiB : float;
  m_swapChoices : SwapChoiceSet;
  m_initialInstallChoice : InstallChoice;
  m_installChoice : InstallChoice;
  m_initialSwapChoice : SwapChoice;
  m_swapChoice : SwapChoice;
  m_allowManualPartitioning : bool;
  m_eraseFsTypes : list string;
  m_eraseFsTypeChoice : string;
  m_requiredPartitionTableType : list string
}.

(** Assignments to the members. *)
Definition set_requiredStorageGiB (x : float) (this : Config) : Config :=
  {| m_requiredStorageGiB := x;
     m_swapChoices := m_swapChoices this;
     m_initialInstallChoice := m_initialInstallChoice this;
     m_installChoice := m_installChoice this;
     m_initialSwapChoice := m_initialSwapChoice this;
     m_swapChoice := m_swapChoice this;
     m_allowManualPartitioning := m_allowManualPartitioning this;
     m_eraseFsTypes := m_eraseFsTypes this;
     m_eraseFsTypeChoice := m_eraseFsTypeChoice this;
     m_requiredPartitionTableType := m_requiredPartitionTableType this |}.

Definition set_swapChoices (x : SwapChoiceSet) (this : Config) : Config :=
  {| m_requiredStorageGiB := m_requiredStorageGiB this;
     m_swapChoices := x;
     m_initialInstallChoice := m_initialInstallChoice this;
     m_installChoice := m_installChoice this;
     m_initialSwapChoice := m_initialSwapChoice this;
     m_swapChoice := m_swapChoice this;
     m_allowManualPartitioning := m_allowManualPartitioning this;
     m_eraseFsTypes := m_eraseFsTypes this;
     m_eraseFsTypeChoice := m_eraseFsTypeChoice this;
     m_requiredPartitionTableType := m_requiredPartitionTableType this |}.

Definition set_initialInstallChoice (x : InstallChoice) (this : Config) : Config :=
  {| m_requiredStorageGiB := m_requiredStorageGiB this;
     m_swapChoices := m_swapChoices this;
     m_initialInstallChoice := x;
     m_installChoice := m_installChoice this;
     m_initialSwapChoice := m_initialSwapChoice this;
     m_swapChoice := m_swapChoice this;
     m_allowManualPartitioning := m_allowManualPartitioning this;
     m_eraseFsTypes := m_eraseFsTypes this;
     m_eraseFsTypeChoice := m_eraseFsTypeChoice this;
     m_requiredPartitionTableType := m_requiredPartitionTableType this |}.

Definition set_installChoice (x : InstallChoice) (this : Config) : Config :=
  {| m_requiredStorageGiB := m_requiredStorageGiB this;
     m_swapChoices := m_swapChoices this;
     m_initialInstallChoice := m_initialInstallChoice this;
     m_installChoice := x;
     m_initialSwapChoice := m_initialSwapChoice this;
     m_swapChoice := m_swapChoice this;
     m_allowManualPartitioning := m_allowManualPartitioning this;
     m_eraseFsTypes := m_eraseFsTypes this;
     m_eraseFsTypeChoice := m_eraseFsTypeChoice this;
     m_requiredPartitionTableType := m_requiredPartitionTableType this |}.

Definition set_initialSwapChoice (x : SwapChoice) (this : Config) : Config :=
  {| m_requiredStorageGiB := m_requiredStorageGiB this;
     m_swapChoices := m_swapChoices this;
     m_initialInstallChoice := m_initialInstallChoice this;
     m_installChoice := m_installChoice this;
     m_initialSwapChoice := x;
     m_swapChoice := m_swapChoice this;
     m_allowManualPartitioning := m_allowManualPartitioning this;
     m_eraseFsTypes := m_eraseFsTypes this;
     m_eraseFsTypeChoice := m_eraseFsTypeChoice this;
     m_requiredPartitionTableType := m_requiredPartitionTableType this |}.

Definition set_swapChoice (x : SwapChoice) (this : Config) : Config :=
  {| m_requiredStorageGiB := m_requiredStorageGiB this;
     m_swapChoices := m_swapChoices this;
     m_initialInstallChoice := m_initialInstallChoice this;
     m_installChoice := m_installChoice this;
     m_initialSwapChoice := m_initialSwapChoice this;
     m_swapChoice := x;
     m_allowManualPartitioning := m_allowManualPartitioning this;
     m_eraseFsTypes := m_eraseFsTypes this;
     m_eraseFsTypeChoice := m_eraseFsTypeChoice this;
     m_requiredPartitionTableType := m_requiredPartitionTableType this |}.

Definition set_allowManualPartitioning (x : bool) (this : Config) : Config :=
  {| m_requiredStorageGiB := m_requiredStorageGiB this;
     m_swapChoices := m_swapChoices this;
     m_initialInstallChoice := m_initialInstallChoice this;
     m_installChoice := m_installChoice this;
     m_initialSwapChoice := m_initialSwapChoice this;
     m_swapChoice := m_swapChoice this;
     m_allowManualPartitioning := x;
     m_eraseFsTypes := m_eraseFsTypes this;
     m_eraseFsTypeChoice := m_eraseFsTypeChoice this;
     m_requiredPartitionTableType := m_requiredPartitionTableType this |}.

Definition set_eraseFsTypes (x : list string) (this : Config) : Config :=
  {| m_requiredStorageGiB := m_requiredStorageGiB this;
     m_swapChoices := m_swapChoices this;
     m_initialInstallChoice := m_initialInstallChoice this;
     m_installChoice := m_installChoice this;
     m_initialSwapChoice := m_initialSwapChoice this;
     m_swapChoice := m_swapChoice this;
     m_allowManualPartitioning := m_allowManualPartitioning this;
     m_eraseFsTypes := x;
     m_eraseFsTypeChoice := m_eraseFsTypeChoice this;
     m_requiredPartitionTableType := m_requiredPartitionTableType this |}.

Definition set_eraseFsTypeChoice (x : string) (this : Config) : Config :=
  {| m_requiredStorageGiB := m_requiredStorageGiB this;
     m_swapChoices := m_swapChoices this;
     m_initialInstallChoice := m_initialInstallChoice this;
     m_installChoice := m_installChoice this;
     m_initialSwapChoice := m_initialSwapChoice this;
     m_swapChoice := m_swapChoice this;
     m_allowManualPartitioning := m_allowManualPartitioning this;
     m_eraseFsTypes := m_eraseFsTypes this;
     m_eraseFsTypeChoice := x;
     m_requiredPartitionTableType := m_requiredPartitionTableType this |}.

Definition set_requiredPartitionTableType (x : list string) (this : Config) : Config :=
  {| m_requiredStorageGiB := m_requiredStorageGiB this;
     m_swapChoices := m_swapChoices this;
     m_initialInstallChoice := m_initialInstallChoice this;
     m_installChoice := m_installChoice this;
     m_initialSwapChoice := m_initialSwapChoice this;
     m_swapChoice := m_swapChoice this;
     m_allowManualPartitioning := m_allowManualPartitioning this;
     m_eraseFsTypes := m_eraseFsTypes this;
     m_eraseFsTypeChoice := m_eraseFsTypeChoice this;
     m_requiredPartitionTableType := x |}.

(** ** Setters *)

(** [Config::setInstallChoice( InstallChoice c )] *)
Definition setInstallChoice (c : InstallChoice) (this : Config) : M Config :=
  if bool_decide (c ≠ m_installChoice this) then
    let this := set_installChoice c this in
    Q_EMIT (installChoiceChanged c);;
    updateGlobalStorage c (m_swapChoice this);;
    mret this
  else mret this.

(** [Config::setInstallChoice( int c )] *)
Definition setInstallChoice_int (c : Z) (this : Config) : M Config :=
  let c :=
    if (c <? InstallChoice_to_int NoChoice) || (c >? InstallChoice_to_int Manual)
    then InstallChoice_to_int NoChoice
    else c in
  e ← deref (InstallChoice_of_int c);
  setInstallChoice e this.

(** [Config::setSwapChoice( Config::SwapChoice c )] *)
Definition setSwapChoice (c : SwapChoice) (this : Config) : M Config :=
  if bool_decide (c ≠ m_swapChoice this) then
    let this := set_swapChoice c this in
    Q_EMIT (swapChoiceChanged c);;
    updateGlobalStorage (m_installChoice this) c;;
    mret this
  else mret this.

(** [Config::setSwapChoice( int c )] *)
Definition setSwapChoice_int (c : Z) (this : Config) : M Config :=
  let c :=
    if (c <? SwapChoice_to_int NoSwap) || (c >? SwapChoice_to_int SwapFile)
    then SwapChoice_to_int NoSwap
    else c in
  e ← deref (SwapChoice_of_int c);
  setSwapChoice e this.

(** ** Loading the configuration *)

Definition fillGSConfigurationEFI (gs : ptr) (configurationMap : QVariantMap) : M unit :=
  efi ← PartUtils_isEfiSystem;
  let firmwareType : string := if efi : bool then "efi" else "bios" in
  GS_insert gs "firmwareType" (VString firmwareType);;
  GS_insert gs "efiSystemPartition"
    (VString (CalamaresUtils.getString configurationMap "efiSystemPartition" "/boot/efi"));;
  (if contains configurationMap "efiSystemPartitionSize" then
     GS_insert gs "efiSystemPartitionSize"
       (VString (CalamaresUtils.getString configurationMap "efiSystemPartitionSize" EmptyString))
   else mret tt);;
  (if contains configurationMap "efiSystemPartitionName" then
     GS_insert gs "efiSystemPartitionName"
       (VString (CalamaresUtils.getString configurationMap "efiSystemPartitionName" EmptyString))
   else mret tt).

Section SetConfigurationMap.
Context `{QSetOrder}.

Definition setConfigurationMap (configurationMap : QVariantMap) (this : Config)
  : M Config :=
  let this :=
    set_requiredStorageGiB
      (CalamaresUtils.getDouble configurationMap "requiredStorage" (-1)%float) this in
  let this := set_swapChoices (getSwapChoices configurationMap) this in
  let this :=
    set_initialInstallChoice
      (fst (NamedEnumTable.find installChoiceNames
              (CalamaresUtils.getString configurationMap "initialPartitioningChoice" EmptyString)))
      this in
  this ← setInstallChoice (m_initialInstallChoice this) this;
  let this :=
    set_initialSwapChoice
      (fst (NamedEnumTable.find swapChoiceNames
              (CalamaresUtils.getString configurationMap "initialSwapChoice" EmptyString)))
      this in
  this ← (if negb (bool_decide (m_initialSwapChoice this ∈ m_swapChoices this)) then
            c ← deref (pickOne (m_swapChoices this));
            mret (set_initialSwapChoice c this)
          else mret this);
  this ← setSwapChoice (m_initialSwapChoice this) this;
  let this :=
    set_allowManualPartitioning
      (CalamaresUtils.getBool configurationMap "allowManualPartitioning" true) this in
  this ← (if contains configurationMap "availableFileSystemTypes" then
            let fsTypes :=
              CalamaresUtils.getStringList configurationMap "availableFileSystemTypes" [] in
            let this := set_eraseFsTypes fsTypes this in
            match fsTypes with
            | first :: _ =>
                let this := set_eraseFsTypeChoice first this in
                Q_EMIT (eraseModeFilesystemChanged (m_eraseFsTypeChoice this));;
                mret this
            | [] => mret this
            end
          else mret this);
  jq ← JobQueue_instance;
  gs ← JobQueue_globalStorage jq;
  let this :=
    set_requiredPartitionTableType
      (CalamaresUtils.getStringList configurationMap "requiredPartitionTableType" []) this in
  GS_insert gs "requiredPartitionTableType"
    (VStringList (m_requiredPartitionTableType this));;
  fillGSConfigurationEFI gs configurationMap;;
  mret this.
End SetConfigurationMap.

(** [Config::fillGSSecondaryConfiguration() const] *)
Definition fillGSSecondaryConfiguration (this : Config) : M unit :=
  gs ← globalStorage_or_null;
  b ← (if PrimFloat.leb 0%float (m_requiredStorageGiB this) then
         if non_null gs then
           c ← GS_contains gs "requiredStorageGiB"; mret (negb c)
         else mret false
       else mret false);
  if b : bool then
    GS_insert gs "requiredStorageGiB" (VDouble (m_requiredStorageGiB this))
  else mret tt.

(** [Config::setEraseFsTypeChoice( const QString& choice )].  The
    canonicalisation [PartUtils::canonicalFilesystemName( choice, nullptr )]
    is declared in core/PartUtils.h, outside this file: it is a parameter. *)
Section SetEraseFsTypeChoice.
Variable canonicalFilesystemName : string -> string.

Definition setEraseFsTypeChoice (choice : string) (this : Config) : M Config :=
  let canonicalChoice := canonicalFilesystemName choice in
  if bool_decide (canonicalChoice ≠ m_eraseFsTypeChoice this) then
    let this := set_eraseFsTypeChoice canonicalChoice this in
    Q_EMIT (eraseModeFilesystemChanged canonicalChoice);;
    mret this
  else mret this.
End SetEraseFsTypeChoice.

(** A world with a job queue and an empty store, on a BIOS machine, and a
    Config object before any configuration was loaded (used by the examples
    below; Config.h, which holds the member initialisers, is not among the
    sources). *)
Definition world0 : World :=
  {| jobQueue := Some {| m_storage := Some ∅ |}; isEfiSystem := false; emitted := [] |}.

Definition no_queue : World :=
  {| jobQueue := None; isEfiSystem := false; emitted := [] |}.

Definition config0 : Config :=
  {| m_requiredStorageGiB := 0%float;
     m_swapChoices := ∅;
     m_initialInstallChoice := NoChoice;
     m_installChoice := NoChoice;
     m_initialSwapChoice := NoSwap;
     m_swapChoice := NoSwap;
     m_allowManualPartitioning := true;
     m_eraseFsTypes := [];
     m_eraseFsTypeChoice := EmptyString;
     m_requiredPartitionTableType := [] |}.

(** ** Observations and example inputs used by the statements below *)

(** The configuration that lists "reuse" as the only swap choice. *)
Definition only_reuse : QVariantMap :=
  {[ "userSwapChoices"%string := VStringList [ "reuse"%string ] ]}.

(** Both legacy keys set: neverCreateSwap wins. *)
Definition legacy_both : QVariantMap :=
  {[ "neverCreateSwap"%string := VBool true;
     "ensureSuspendToDisk"%string := VBool true ]}.

(** The entries ["suspend"; "reuse"] of the resolver's example. *)
Definition suspend_reuse : QVariantMap :=
  {[ "userSwapChoices"%string := VStringList [ "suspend"%string; "reuse"%string ] ]}.

(** An unknown entry next to a known one. *)
Definition bogus_small : QVariantMap :=
  {[ "userSwapChoices"%string := VStringList [ "bogus"%string; "small"%string ] ]}.

(** The record stored under the key partitionChoices. *)
Definition partitionChoices_record (installChoice : InstallChoice) (swapChoice : SwapChoice)
  : QVariant :=
  VMap {[ "install"%string :=
            VString (fst (NamedEnumTable.find_value installChoiceNames installChoice));
          "swap"%string :=
            VString (fst (NamedEnumTable.find_value swapChoiceNames swapChoice)) ]}.

(** The value the integer setter passes on after its range check. *)
Definition checked_InstallChoice (c : Z) : Z :=
  if (c <? InstallChoice_to_int NoChoice) || (c >? InstallChoice_to_int Manual)
  then InstallChoice_to_int NoChoice else c.

Definition checked_SwapChoice (c : Z) : Z :=
  if (c <? SwapChoice_to_int NoSwap) || (c >? SwapChoice_to_int SwapFile)
  then SwapChoice_to_int NoSwap else c.

(** A Config with a threshold of 8 GiB against the empty store. *)
Definition config_8GiB : Config := set_requiredStorageGiB 8%float config0.

(** initialSwapChoice = "file" against userSwapChoices = ["suspend"]. *)
Definition file_vs_suspend : QVariantMap :=
  {[ "initialSwapChoice"%string := VString "file";
     "userSwapChoices"%string := VStringList [ "suspend"%string ] ]}.

Section AppliedSwapChoice.
Context `{QSetOrder}.

(** The swap choice that [setConfigurationMap] hands to [setSwapChoice]. *)
Definition applied_swap_choice (configurationMap : QVariantMap) (c : SwapChoice) : Prop :=
  let parsed :=
    fst (NamedEnumTable.find swapChoiceNames
           (CalamaresUtils.getString configurationMap "initialSwapChoice" EmptyString)) in
  if bool_decide (parsed ∈ getSwapChoices configurationMap) then c = parsed
  else pickOne (getSwapChoices configurationMap) = Some c.
End AppliedSwapChoice.

(** The world after [updateGlobalStorage]: the record goes into the store
    when there is one. *)
Definition publish (installChoice : InstallChoice) (swapChoice : SwapChoice) (w : World)
  : World :=
  match store w with
  | Some g => set_store (<[ "partitionChoices"%string :=
                              partitionChoices_record installChoice swapChoice ]> g) w
  | None => w
  end.

(** The store's record agrees with the two choices held by the Config. *)
Definition record_in_step (this : Config) (w : World) : Prop :=
  ∀ g, store w = Some g →
       g !! "partitionChoices"%string
         = Some (partitionChoices_record (m_installChoice this) (m_swapChoice this)).

(** The keys written while a configuration is loaded. *)
Definition load_keys : list string :=
  [ "partitionChoices"; "requiredPartitionTableType"; "firmwareType";
    "efiSystemPartition"; "efiSystemPartitionSize"; "efiSystemPartitionName" ]%string.

(** The install choice named by initialPartitioningChoice. *)
Definition parsed_install_choice (configurationMap : QVariantMap) : InstallChoice :=
  fst (NamedEnumTable.find installChoiceNames
         (CalamaresUtils.getString configurationMap "initialPartitioningChoice" EmptyString)).

(** The signals of one load, in the order of emission: the install choice and
    the swap choice when they change, the erase-mode file system whenever a
    non-empty list of file systems is configured. *)
Definition load_signals (configurationMap : QVariantMap) (c : SwapChoice) (this : Config)
  : list Signal :=
  (if bool_decide (parsed_install_choice configurationMap ≠ m_installChoice this)
   then [ installChoiceChanged (parsed_install_choice configurationMap) ] else []) ++
  (if bool_decide (c ≠ m_swapChoice this) then [ swapChoiceChanged c ] else []) ++
  (if contains configurationMap "availableFileSystemTypes" then
     match CalamaresUtils.getStringList configurationMap "availableFileSystemTypes" [] with
     | first :: _ => [ eraseModeFilesystemChanged first ]
     | [] => []
     end
   else []).

(** The store after [fillGSConfigurationEFI] ran on the store [g]. *)
Definition efi_keys (configurationMap : QVariantMap) (efi : bool) (g : GlobalStorage)
  : GlobalStorage :=
  let g := <[ "firmwareType"%string :=
                VString (if efi then "efi" else "bios") ]> g in
  let g := <[ "efiSystemPartition"%string :=
                VString (CalamaresUtils.getString configurationMap
                           "efiSystemPartition" "/boot/efi") ]> g in
  let g := if contains configurationMap "efiSystemPartitionSize"
           then <[ "efiSystemPartitionSize"%string :=
                     VString (CalamaresUtils.getString configurationMap
                                "efiSystemPartitionSize" EmptyString) ]> g
           else g in
  if contains configurationMap "efiSystemPartitionName"
  then <[ "efiSystemPartitionName"%string :=
            VString (CalamaresUtils.getString configurationMap
                       "efiSystemPartitionName" EmptyString) ]> g
  else g.

(** The Config object after a load that applied the swap choice [c]. *)
Definition loaded_config (configurationMap : QVariantMap) (c : SwapChoice) (this : Config)
  : Config :=
  {| m_requiredStorageGiB :=
       CalamaresUtils.getDouble configurationMap "requiredStorage" (-1)%float;
     m_swapChoices := getSwapChoices configurationMap;
     m_initialInstallChoice := parsed_install_choice configurationMap;
     m_installChoice := parsed_install_choice configurationMap;
     m_initialSwapChoice := c;
     m_swapChoice := c;
     m_allowManualPartitioning :=
       CalamaresUtils.getBool configurationMap "allowManualPartitioning" true;
     m_eraseFsTypes :=
       if contains configurationMap "availableFileSystemTypes"
       then CalamaresUtils.getStringList configurationMap "availableFileSystemTypes" []
       else m_eraseFsTypes this;
     m_eraseFsTypeChoice :=
       if contains configurationMap "availableFileSystemTypes"
       then default (m_eraseFsTypeChoice this)
              (head (CalamaresUtils.getStringList configurationMap
                       "availableFileSystemTypes" []))
       else m_eraseFsTypeChoice this;
     m_requiredPartitionTableType :=
       CalamaresUtils.getStringList configurationMap "requiredPartitionTableType" [] |}.

(** The store after that load, started on the store [g]. *)
Definition loaded_store (configurationMap : QVariantMap) (c : SwapChoice) (this : Config)
    (efi : bool) (g : GlobalStorage) : GlobalStorage :=
  let ic := parsed_install_choice configurationMap in
  let g := if bool_decide (ic ≠ m_installChoice this)
           then <[ "partitionChoices"%string :=
                     partitionChoices_record ic (m_swapChoice this) ]> g
           else g in
  let g := if bool_decide (c ≠ m_swapChoice this)
           then <[ "partitionChoices"%string := partitionChoices_record ic c ]> g
           else g in
  efi_keys configurationMap efi
    (<[ "requiredPartitionTableType"%string :=
          VStringList (CalamaresUtils.getStringList configurationMap
                         "requiredPartitionTableType" []) ]> g).

(** "small" with and without a legacy key that asks for no swap. *)
Definition small_never : QVariantMap :=
  {[ "userSwapChoices"%string := VStringList [ "small"%string ];
     "neverCreateSwap"%string := VBool true ]}.

Definition small_only : QVariantMap :=
  {[ "userSwapChoices"%string := VStringList [ "small"%string ] ]}.

(** The same entries in another order, one of them twice. *)
Definition small_none_small : QVariantMap :=
  {[ "userSwapChoices"%string :=
       VStringList [ "small"%string; "none"%string; "small"%string ] ]}.

Definition none_small : QVariantMap :=
  {[ "userSwapChoices"%string := VStringList [ "none"%string; "small"%string ] ]}.

(** A configuration that names an install choice and nothing else. *)
Definition choice_replace : QVariantMap :=
  {[ "initialPartitioningChoice"%string := VString "replace" ]}.

(** File systems configured, the first one already being the choice held. *)
Definition fs_ext4_btrfs : QVariantMap :=
  {[ "availableFileSystemTypes"%string := VStringList [ "ext4"%string; "btrfs"%string ] ]}.

(** A threshold of 8 GiB and nothing else. *)
Definition storage_8GiB : QVariantMap :=
  {[ "requiredStorage"%string := VDouble 8%float ]}.

(** Every member of the Config but the current install choice, resp. but the
    current swap choice: what a setter has to leave alone. *)
Definition members_but_installChoice (this : Config) :=
  (m_requiredStorageGiB this, m_swapChoices this, m_initialInstallChoice this,
   m_initialSwapChoice this, m_swapChoice this, m_allowManualPartitioning this,
   m_eraseFsTypes this, m_eraseFsTypeChoice this, m_requiredPartitionTableType this).

Definition members_but_swapChoice (this : Config) :=
  (m_requiredStorageGiB this, m_swapChoices this, m_initialInstallChoice this,
   m_installChoice this, m_initialSwapChoice this, m_allowManualPartitioning this,
   m_eraseFsTypes this, m_eraseFsTypeChoice this, m_requiredPartitionTableType this).

(** A configuration that asks for a GPT partition table. *)
Definition table_gpt : QVariantMap :=
  {[ "requiredPartitionTableType"%string := VStringList [ "gpt"%string ] ]}.

(** * Properties *)

(** ** Name tables *)

Lemma find_value_installChoiceNames (v : InstallChoice) :
  NamedEnumTable.find_value installChoiceNames v =
  (match v with
   | NoChoice => "none" | Alongside => "alongside" | Erase => "erase"
   | Replace => "replace" | Manual => "manual"
   end%string, true).
Proof. by destruct v. Qed.

Lemma find_value_swapChoiceNames (v : SwapChoice) :
  NamedEnumTable.find_value swapChoiceNames v =
  (match v with
   | NoSwap => "none" | SmallSwap => "small" | FullSwap => "suspend"
   | ReuseSwap => "reuse" | SwapFile => "file"
   end%string, true).
Proof. by destruct v. Qed.

(** A name is found in the swap table exactly when the table pairs it with
    the value returned. *)
Lemma find_swapChoiceNames_ok (item : string) (x : SwapChoice) :
  NamedEnumTable.find swapChoiceNames item = (x, true) ↔ (item, x) ∈ swapChoiceNames.
Proof.
  unfold NamedEnumTable.find, swapChoiceNames. split.
  - cbn [NamedEnumTable.find_entry].
    repeat match goal with
           | |- context [String.eqb item ?n] =>
               destruct (String.eqb_spec item n) as [->|?];
               [intros [= <-]; set_solver|]
           end.
    intros [=].
  - rewrite !elem_of_cons, elem_of_nil.
    intros [[= -> ->]|[[= -> ->]|[[= -> ->]|[[= -> ->]|[[= -> ->]|[]]]]]]; reflexivity.
Qed.

(** C8. Round trip through the name tables: for every InstallChoice and every
    SwapChoice value, the canonical name found for the value (the first table
    entry holding it) is found again by name, successfully, with the original
    value. *)
Theorem name_table_round_trip :
  (∀ v : InstallChoice,
     NamedEnumTable.find installChoiceNames
       (fst (NamedEnumTable.find_value installChoiceNames v)) = (v, true)) ∧
  (∀ v : SwapChoice,
     NamedEnumTable.find swapChoiceNames
       (fst (NamedEnumTable.find_value swapChoiceNames v)) = (v, true)).
Proof.
  split; intros v.
  - rewrite find_value_installChoiceNames. by destruct v.
  - rewrite find_value_swapChoiceNames. by destruct v.
Qed.

(** ** pickOne *)

Section PickOneFacts.
Context `{QSetOrder}.

Lemma qbegin_singleton (x : SwapChoice) : qbegin {[ x ]} = Some x.
Proof.
  destruct (qbegin_nonempty {[ x ]}) as [y Hy]; [set_solver|].
  rewrite Hy. f_equal. apply qbegin_elem in Hy. set_solver.
Qed.

Lemma pickOne_total (s : SwapChoiceSet) : is_Some (pickOne s).
Proof.
  unfold pickOne.
  destruct (Nat.eqb_spec (size s) 0) as [|Hne]; [by eexists|].
  assert (s ≠ ∅) by (intros ->; by rewrite size_empty in Hne).
  destruct (size s =? 1)%nat; [by apply qbegin_nonempty|].
  case_bool_decide; [by eexists|by apply qbegin_nonempty].
Qed.

Lemma pickOne_singleton (x : SwapChoice) : pickOne {[ x ]} = Some x.
Proof. unfold pickOne. rewrite size_singleton. simpl. apply qbegin_singleton. Qed.

Lemma pickOne_NoSwap (s : SwapChoiceSet) : NoSwap ∈ s → pickOne s = Some NoSwap.
Proof.
  intros Hin. unfold pickOne.
  destruct (Nat.eqb_spec (size s) 0) as [|_]; [done|].
  destruct (Nat.eqb_spec (size s) 1) as [H1|_].
  - apply size_1_elem_of in H1 as [y Hy]. apply leibniz_equiv in Hy. subst s.
    apply elem_of_singleton in Hin as <-. apply qbegin_singleton.
  - by rewrite bool_decide_eq_true_2.
Qed.

Lemma pickOne_empty : pickOne ∅ = Some NoSwap.
Proof. reflexivity. Qed.

(** Whatever is picked from a non-empty set is one of its members. *)
Lemma pickOne_elem (s : SwapChoiceSet) (x : SwapChoice) :
  s ≠ ∅ → pickOne s = Some x → x ∈ s.
Proof.
  intros Hs. unfold pickOne.
  destruct (Nat.eqb_spec (size s) 0) as [H0|_].
  { apply size_empty_inv in H0. apply leibniz_equiv in H0. done. }
  destruct (size s =? 1)%nat; [apply qbegin_elem|].
  case_bool_decide; [by intros [= <-]|apply qbegin_elem].
Qed.
End PickOneFacts.

(** C4. [pickOne] is total (it never dereferences the end iterator); on a
    singleton it returns the member, on a set containing NoSwap it returns
    NoSwap, on the empty set it returns NoSwap; in particular
    pickOne({NoSwap, SmallSwap}) = NoSwap, pickOne({SmallSwap}) = SmallSwap and
    pickOne({}) = NoSwap.  This holds for every iteration order of the set. *)
Theorem pickOne_policy `{QSetOrder} :
  (∀ s, is_Some (pickOne s)) ∧
  (∀ x, pickOne {[ x ]} = Some x) ∧
  (∀ s, NoSwap ∈ s → pickOne s = Some NoSwap) ∧
  pickOne ∅ = Some NoSwap ∧
  pickOne {[ NoSwap; SmallSwap ]} = Some NoSwap ∧
  pickOne {[ SmallSwap ]} = Some SmallSwap.
Proof.
  split_and!.
  - apply pickOne_total.
  - apply pickOne_singleton.
  - apply pickOne_NoSwap.
  - apply pickOne_empty.
  - apply pickOne_NoSwap. set_solver.
  - apply pickOne_singleton.
Qed.

Lemma pickOne_policy_witness :
  NoSwap ∈ ({[ FullSwap; NoSwap; SwapFile ]} : SwapChoiceSet) ∧
  pickOne (H := elements_order) {[ FullSwap; NoSwap; SwapFile ]} = Some NoSwap.
Proof.
  split; [set_solver|].
  apply (proj1 (proj2 (proj2 (pickOne_policy (H := elements_order))))).
  set_solver.
Defined.

(** ** The swap-choice resolver *)

Lemma contains_true (m : gmap string QVariant) (key : string) :
  contains m key = true ↔ is_Some (m !! key).
Proof. unfold contains. apply bool_decide_eq_true. Qed.

Lemma contains_false (m : gmap string QVariant) (key : string) :
  contains m key = false ↔ m !! key = None.
Proof.
  unfold contains. rewrite bool_decide_eq_false. by rewrite eq_None_not_Some.
Qed.

Lemma COMPLAIN_UNSUPPORTED_difference (x : SwapChoice) (choices : SwapChoiceSet) :
  COMPLAIN_UNSUPPORTED x choices = choices ∖ {[ x ]}.
Proof.
  unfold COMPLAIN_UNSUPPORTED. case_bool_decide as Hx; [done|].
  apply leibniz_equiv. intros y. rewrite elem_of_difference, elem_of_singleton.
  split; [|tauto]. intros Hy. split; [done|]. by intros ->.
Qed.

(** The set built by the loop over the entries: the values the table pairs
    with some entry, on top of what was there. *)
Lemma elem_of_foldl_insert_named (l : list string) (s : SwapChoiceSet) (x : SwapChoice) :
  x ∈ foldl insert_named s l ↔
  x ∈ s ∨ ∃ item, item ∈ l ∧ (item, x) ∈ swapChoiceNames.
Proof.
  revert s. induction l as [|item l IH]; intros s; simpl.
  { split; [auto|]. intros [?|(? & ?%elem_of_nil & _)]; done. }
  rewrite IH. unfold insert_named.
  destruct (NamedEnumTable.find swapChoiceNames item) as [v ok] eqn:Hfind.
  destruct ok.
  - apply find_swapChoiceNames_ok in Hfind.
    rewrite elem_of_union, elem_of_singleton. split.
    + intros [[->|?]|(i & ? & ?)]; [right; exists item|by left|right; exists i];
        by rewrite elem_of_cons; auto.
    + intros [?|(i & [->|?]%elem_of_cons & Hi)]; [auto| |right; by exists i].
      left; left. apply find_swapChoiceNames_ok in Hi, Hfind. congruence.
  - split.
    + intros [?|(i & ? & ?)]; [by left|right; exists i]. by rewrite elem_of_cons; auto.
    + intros [?|(i & [->|?]%elem_of_cons & Hi)]; [auto| |right; by exists i].
      apply find_swapChoiceNames_ok in Hi. congruence.
Qed.

(** The resolved set never contains ReuseSwap. *)
Lemma getSwapChoices_no_ReuseSwap (configurationMap : QVariantMap) :
  ReuseSwap ∉ getSwapChoices configurationMap.
Proof.
  unfold getSwapChoices. rewrite COMPLAIN_UNSUPPORTED_difference.
  intros [_ Hn]%elem_of_difference. by apply Hn, elem_of_singleton.
Qed.

(** C1 (the code at the failing input). With userSwapChoices = ["reuse"] the
    set is not empty when the fall-back to FullSwap is considered, and ReuseSwap
    is removed afterwards: the resolver returns the empty set. *)
Theorem getSwapChoices_only_reuse : getSwapChoices only_reuse = ∅.
Proof. by vm_compute. Qed.

(** The legacy branch, as an equation. *)
Lemma getSwapChoices_without_user (configurationMap : QVariantMap) :
  configurationMap !! "userSwapChoices"%string = None →
  getSwapChoices configurationMap =
    (if CalamaresUtils.getBool configurationMap "neverCreateSwap" false
     then {[ NoSwap ]}
     else if CalamaresUtils.getBool configurationMap "ensureSuspendToDisk" true
          then {[ FullSwap ]}
          else {[ SmallSwap ]}).
Proof.
  intros Hnone. unfold getSwapChoices.
  apply contains_false in Hnone. rewrite Hnone.
  rewrite COMPLAIN_UNSUPPORTED_difference.
  destruct (CalamaresUtils.getBool configurationMap "neverCreateSwap" false);
    [|destruct (CalamaresUtils.getBool configurationMap "ensureSuspendToDisk" true)];
    apply leibniz_equiv; intros x;
    rewrite elem_of_difference, elem_of_union, !elem_of_singleton, elem_of_empty;
    (split; [intros [[->|[]] _]; reflexivity|intros ->; split; [by left|done]]).
Qed.

(** C2. Without the key userSwapChoices the resolver returns a one-element
    set chosen by the legacy booleans in priority order: {NoSwap} if
    neverCreateSwap (default false), else {FullSwap} if ensureSuspendToDisk
    (default true), else {SmallSwap}. *)
Theorem getSwapChoices_legacy (configurationMap : QVariantMap) :
  configurationMap !! "userSwapChoices"%string = None →
  getSwapChoices configurationMap =
    (if CalamaresUtils.getBool configurationMap "neverCreateSwap" false
     then {[ NoSwap ]}
     else if CalamaresUtils.getBool configurationMap "ensureSuspendToDisk" true
          then {[ FullSwap ]}
          else {[ SmallSwap ]})
  ∧ size (getSwapChoices configurationMap) = 1%nat.
Proof.
  intros Hnone. split; [by apply getSwapChoices_without_user|].
  rewrite getSwapChoices_without_user by done.
  destruct (CalamaresUtils.getBool configurationMap "neverCreateSwap" false);
    [|destruct (CalamaresUtils.getBool configurationMap "ensureSuspendToDisk" true)];
    apply size_singleton.
Qed.

Lemma getSwapChoices_legacy_witness :
  legacy_both !! "userSwapChoices"%string = None ∧
  getSwapChoices legacy_both = {[ NoSwap ]}.
Proof.
  split; [by vm_compute|].
  exact (proj1 (getSwapChoices_legacy legacy_both eq_refl)).
Defined.

(** The three legacy outcomes on the raw map: the defaults give {FullSwap}. *)
Lemma legacy_outcomes :
  getSwapChoices ∅ = {[ FullSwap ]} ∧
  getSwapChoices {[ "neverCreateSwap"%string := VBool true ]} = {[ NoSwap ]} ∧
  getSwapChoices {[ "neverCreateSwap"%string := VBool false;
                    "ensureSuspendToDisk"%string := VBool false ]} = {[ SmallSwap ]}.
Proof. split_and!; by vm_compute. Qed.

(** Membership in the set resolved from the entries of userSwapChoices. *)
Lemma elem_of_getSwapChoices_user (configurationMap : QVariantMap) (v : QVariant) :
  configurationMap !! "userSwapChoices"%string = Some v →
  let named (x : SwapChoice) :=
    ∃ item, item ∈ toStringList v ∧ (item, x) ∈ swapChoiceNames in
  ∀ x, x ∈ getSwapChoices configurationMap ↔
       x ≠ ReuseSwap ∧ (named x ∨ (¬ (∃ y, named y)) ∧ x = FullSwap).
Proof.
  intros Hv named x. unfold getSwapChoices.
  assert (contains configurationMap "userSwapChoices" = true) as ->
    by (apply contains_true; by eexists).
  unfold at_key. rewrite Hv. cbn [from_option id].
  rewrite COMPLAIN_UNSUPPORTED_difference, elem_of_difference, elem_of_singleton.
  assert (∀ y, y ∈ foldl insert_named ∅ (toStringList v) ↔ named y) as Hfold.
  { intros y. rewrite elem_of_foldl_insert_named.
    split; [intros [[]%elem_of_empty|]|]; auto. }
  case_bool_decide as Hempty.
  - assert (¬ ∃ y, named y) as Hnone.
    { intros [y Hy]. apply Hfold in Hy. rewrite Hempty in Hy.
      by apply elem_of_empty in Hy. }
    rewrite Hempty, elem_of_union, elem_of_singleton. split.
    + intros [[->|[]%elem_of_empty] ?]. auto.
    + intros [? [Hx|[_ ->]]]; [destruct Hnone; by exists x|auto].
  - rewrite Hfold. split.
    + intros [? ?]; auto.
    + intros [? [?|[Hnone _]]]; [done|].
      destruct Hempty. apply leibniz_equiv. intros y. split.
      * intros Hy. apply Hfold in Hy. destruct Hnone. by exists y.
      * by intros ?%elem_of_empty.
Qed.

(** When the resolver returns the empty set: userSwapChoices is present, some
    entry names ReuseSwap, and no entry names anything else. *)
Lemma getSwapChoices_empty_iff (configurationMap : QVariantMap) :
  getSwapChoices configurationMap = ∅ ↔
  ∃ v, configurationMap !! "userSwapChoices"%string = Some v ∧
       (∃ item, item ∈ toStringList v ∧ (item, ReuseSwap) ∈ swapChoiceNames) ∧
       (∀ item x, item ∈ toStringList v → (item, x) ∈ swapChoiceNames → x = ReuseSwap).
Proof.
  split.
  - intros Hempty.
    destruct (configurationMap !! "userSwapChoices"%string) as [v|] eqn:Hv.
    + pose proof (elem_of_getSwapChoices_user configurationMap v Hv) as Hmem.
      cbv zeta in Hmem. rewrite Hempty in Hmem.
      assert (∀ item x, item ∈ toStringList v → (item, x) ∈ swapChoiceNames →
                        x = ReuseSwap) as Hall.
      { intros item x Hitem Hx. destruct (decide (x = ReuseSwap)) as [|Hne]; [done|].
        exfalso. apply (not_elem_of_empty (C := SwapChoiceSet) x), Hmem.
        split; [done|]. left. by exists item. }
      exists v. split_and!; [done| |done].
      destruct (decide (foldl insert_named ∅ (toStringList v) = ∅)) as [Hnone|Hsome].
      * exfalso. apply (not_elem_of_empty (C := SwapChoiceSet) FullSwap), Hmem.
        split; [done|]. right. split; [|done].
        intros (y & item & ? & ?).
        apply (not_elem_of_empty (C := SwapChoiceSet) y). rewrite <- Hnone.
        apply elem_of_foldl_insert_named. right. by exists item.
      * apply set_choose_L in Hsome as [x Hx].
        apply elem_of_foldl_insert_named in Hx
          as [[]%elem_of_empty|(item & Hitem & Hx)].
        exists item. split; [done|]. by rewrite <- (Hall item x).
    + rewrite getSwapChoices_without_user in Hempty by done. exfalso.
      destruct (CalamaresUtils.getBool configurationMap "neverCreateSwap" false);
        [|destruct (CalamaresUtils.getBool configurationMap "ensureSuspendToDisk" true)];
        by apply non_empty_singleton_L in Hempty.
  - intros (v & Hv & (item & Hitem & Hreuse) & Hall).
    apply leibniz_equiv. intros x. split; [|by intros ?%elem_of_empty].
    intros Hx. apply (elem_of_getSwapChoices_user configurationMap v Hv) in Hx.
    destruct Hx as [Hne [(i & ? & ?)|[Hnone _]]].
    + destruct Hne. by apply (Hall i).
    + destruct Hnone. exists ReuseSwap. by exists item.
Qed.

(** C3. With userSwapChoices present, a value is in the resolved set exactly
    when it is not ReuseSwap and either the swap name table pairs it with one
    of the entries (entries that name no SwapChoice contribute nothing), or no
    entry names a SwapChoice at all and the value is FullSwap.  In particular
    ["suspend", "reuse"] resolves to {FullSwap}. *)
Theorem getSwapChoices_user :
  (∀ (configurationMap : QVariantMap) (v : QVariant),
     configurationMap !! "userSwapChoices"%string = Some v →
     let named (x : SwapChoice) :=
       ∃ item, item ∈ toStringList v ∧ (item, x) ∈ swapChoiceNames in
     ∀ x, x ∈ getSwapChoices configurationMap ↔
          x ≠ ReuseSwap ∧ (named x ∨ (¬ (∃ y, named y)) ∧ x = FullSwap)) ∧
  getSwapChoices suspend_reuse = {[ FullSwap ]}.
Proof.
  split; [apply elem_of_getSwapChoices_user|by vm_compute].
Qed.

Lemma getSwapChoices_user_witness :
  bogus_small !! "userSwapChoices"%string
    = Some (VStringList [ "bogus"%string; "small"%string ]) ∧
  SmallSwap ∈ getSwapChoices bogus_small.
Proof.
  split; [by vm_compute|].
  apply (proj1 getSwapChoices_user bogus_small
           (VStringList [ "bogus"%string; "small"%string ]) eq_refl).
  split; [done|]. left. exists "small"%string.
  split; [set_solver|]. unfold swapChoiceNames. set_solver.
Defined.

(** ** Running the computations *)

Lemma M_bind_eq {A B} (c : M A) (f : A → M B) (w : World) :
  (c ≫= f) w = match c w with Some (a, w') => f a w' | None => None end.
Proof. reflexivity. Qed.

Lemma M_ret_eq {A} (a : A) (w : World) : (mret a : M A) w = Some (a, w).
Proof. reflexivity. Qed.

Lemma store_notify (s : Signal) (w : World) : store (notify s w) = store w.
Proof. reflexivity. Qed.

Lemma store_set_store (g : GlobalStorage) (w : World) : store (set_store g w) = Some g.
Proof. reflexivity. Qed.

Lemma globalStorage_or_null_eq (w : World) :
  globalStorage_or_null w = Some (ptr_of (store w), w).
Proof. destruct w as [[[[g|]]|] efi em]; reflexivity. Qed.

Lemma GS_insert_eq (g : GlobalStorage) (key : string) (v : QVariant) (w : World) :
  store w = Some g →
  GS_insert addr key v w = Some (tt, set_store (<[ key := v ]> g) w).
Proof. intros Hg. unfold GS_insert. by rewrite Hg. Qed.

Lemma GS_insert_fault (gs : ptr) (key : string) (v : QVariant) (w : World) :
  store w = None → GS_insert gs key v w = None.
Proof. intros Hg. unfold GS_insert. rewrite Hg. by destruct gs. Qed.

Lemma updateGlobalStorage_eq (ic : InstallChoice) (sc : SwapChoice) (w : World) :
  updateGlobalStorage ic sc w =
  Some (tt, match store w with
            | Some g => set_store (<[ "partitionChoices"%string :=
                                        partitionChoices_record ic sc ]> g) w
            | None => w
            end).
Proof.
  unfold updateGlobalStorage. rewrite M_bind_eq, globalStorage_or_null_eq.
  destruct (store w) as [g|] eqn:Hg; cbn [ptr_of non_null]; [|reflexivity].
  erewrite GS_insert_eq by done. cbv zeta. do 4 f_equal.
Qed.

Lemma set_installChoice_same (this : Config) :
  set_installChoice (m_installChoice this) this = this.
Proof. by destruct this. Qed.

Lemma set_swapChoice_same (this : Config) :
  set_swapChoice (m_swapChoice this) this = this.
Proof. by destruct this. Qed.

Lemma setInstallChoice_same (this : Config) (w : World) :
  setInstallChoice (m_installChoice this) this w = Some (this, w).
Proof. unfold setInstallChoice. by rewrite bool_decide_eq_false_2 by auto. Qed.

Lemma setSwapChoice_same (this : Config) (w : World) :
  setSwapChoice (m_swapChoice this) this w = Some (this, w).
Proof. unfold setSwapChoice. by rewrite bool_decide_eq_false_2 by auto. Qed.

Lemma setInstallChoice_changed (c : InstallChoice) (this : Config) (w : World) :
  c ≠ m_installChoice this →
  ∃ w', setInstallChoice c this w = Some (set_installChoice c this, w') ∧
        emitted w' = emitted w ++ [installChoiceChanged c] ∧
        isEfiSystem w' = isEfiSystem w ∧
        store w' = <[ "partitionChoices"%string :=
                        partitionChoices_record c (m_swapChoice this) ]> <$> store w ∧
        (store w = None → jobQueue w' = jobQueue w).
Proof.
  intros Hne. unfold setInstallChoice. rewrite bool_decide_eq_true_2 by done.
  cbv zeta. rewrite M_bind_eq. unfold Q_EMIT. cbv beta iota.
  rewrite M_bind_eq, updateGlobalStorage_eq. cbv beta iota. rewrite M_ret_eq.
  eexists; split; [reflexivity|]. rewrite store_notify.
  destruct (store w) as [g|] eqn:Hs; split_and!; try reflexivity; try done.
Qed.

Lemma setSwapChoice_changed (c : SwapChoice) (this : Config) (w : World) :
  c ≠ m_swapChoice this →
  ∃ w', setSwapChoice c this w = Some (set_swapChoice c this, w') ∧
        emitted w' = emitted w ++ [swapChoiceChanged c] ∧
        isEfiSystem w' = isEfiSystem w ∧
        store w' = <[ "partitionChoices"%string :=
                        partitionChoices_record (m_installChoice this) c ]> <$> store w ∧
        (store w = None → jobQueue w' = jobQueue w).
Proof.
  intros Hne. unfold setSwapChoice. rewrite bool_decide_eq_true_2 by done.
  cbv zeta. rewrite M_bind_eq. unfold Q_EMIT. cbv beta iota.
  rewrite M_bind_eq, updateGlobalStorage_eq. cbv beta iota. rewrite M_ret_eq.
  eexists; split; [reflexivity|]. rewrite store_notify.
  destruct (store w) as [g|] eqn:Hs; split_and!; try reflexivity; try done.
Qed.

(** C5. A setter called with the current value returns the same Config object
    and the same world: no signal, no store write.  Called with another value
    it completes with a Config whose member holds the new value and whose
    other members are as before, emits the matching signal once, and the
    shared store (when there is one) receives the record of the current
    install and swap choice under the key partitionChoices; nothing else of
    the world changes. *)
Theorem setChoice_effect (this : Config) (w : World) :
  setInstallChoice (m_installChoice this) this w = Some (this, w) ∧
  setSwapChoice (m_swapChoice this) this w = Some (this, w) ∧
  (∀ c, c ≠ m_installChoice this →
     ∃ this' w', setInstallChoice c this w = Some (this', w') ∧
           m_installChoice this' = c ∧
           members_but_installChoice this' = members_but_installChoice this ∧
           emitted w' = emitted w ++ [installChoiceChanged c] ∧
           isEfiSystem w' = isEfiSystem w ∧
           store w' = <[ "partitionChoices"%string :=
                           partitionChoices_record c (m_swapChoice this) ]> <$> store w ∧
           (store w = None → jobQueue w' = jobQueue w)) ∧
  (∀ c, c ≠ m_swapChoice this →
     ∃ this' w', setSwapChoice c this w = Some (this', w') ∧
           m_swapChoice this' = c ∧
           members_but_swapChoice this' = members_but_swapChoice this ∧
           emitted w' = emitted w ++ [swapChoiceChanged c] ∧
           isEfiSystem w' = isEfiSystem w ∧
           store w' = <[ "partitionChoices"%string :=
                           partitionChoices_record (m_installChoice this) c ]> <$> store w ∧
           (store w = None → jobQueue w' = jobQueue w)).
Proof.
  split_and!.
  - apply setInstallChoice_same.
  - apply setSwapChoice_same.
  - intros c Hne.
    destruct (setInstallChoice_changed c this w Hne) as (w' & Hrun & Hrest).
    exists (set_installChoice c this), w'.
    split; [exact Hrun|]. split; [reflexivity|]. split; [reflexivity|]. exact Hrest.
  - intros c Hne.
    destruct (setSwapChoice_changed c this w Hne) as (w' & Hrun & Hrest).
    exists (set_swapChoice c this), w'.
    split; [exact Hrun|]. split; [reflexivity|]. split; [reflexivity|]. exact Hrest.
Qed.

Lemma setChoice_effect_witness :
  Erase ≠ m_installChoice config0 ∧
  ∃ this' w', setInstallChoice Erase config0 world0 = Some (this', w') ∧
        m_installChoice this' = Erase ∧
        members_but_installChoice this' = members_but_installChoice config0 ∧
        emitted w' = emitted world0 ++ [installChoiceChanged Erase] ∧
        isEfiSystem w' = isEfiSystem world0 ∧
        store w' = <[ "partitionChoices"%string :=
                        partitionChoices_record Erase (m_swapChoice config0) ]> <$> store world0 ∧
        (store world0 = None → jobQueue w' = jobQueue world0).
Proof.
  split; [done|].
  apply (proj1 (proj2 (proj2 (setChoice_effect config0 world0))) Erase). done.
Defined.

(** ** The integer setters *)

(** Either way the typed setter leaves the value it was given in the member. *)
Lemma setInstallChoice_stores (c : InstallChoice) (this : Config) (w : World) :
  ∃ w', setInstallChoice c this w = Some (set_installChoice c this, w') ∧
        (is_Some (store w') ↔ is_Some (store w)) ∧
        (store w = None → store w' = None) ∧
        isEfiSystem w' = isEfiSystem w.
Proof.
  destruct (decide (c = m_installChoice this)) as [->|Hne].
  - exists w. by rewrite setInstallChoice_same, set_installChoice_same.
  - destruct (setInstallChoice_changed c this w Hne) as (w' & -> & _ & ? & Hs & _).
    exists w'. rewrite Hs. split_and!; [done| |by intros ->|done].
    by rewrite fmap_is_Some.
Qed.

Lemma setSwapChoice_stores (c : SwapChoice) (this : Config) (w : World) :
  ∃ w', setSwapChoice c this w = Some (set_swapChoice c this, w') ∧
        (is_Some (store w') ↔ is_Some (store w)) ∧
        (store w = None → store w' = None) ∧
        isEfiSystem w' = isEfiSystem w.
Proof.
  destruct (decide (c = m_swapChoice this)) as [->|Hne].
  - exists w. by rewrite setSwapChoice_same, set_swapChoice_same.
  - destruct (setSwapChoice_changed c this w Hne) as (w' & -> & _ & ? & Hs & _).
    exists w'. rewrite Hs. split_and!; [done| |by intros ->|done].
    by rewrite fmap_is_Some.
Qed.

Lemma InstallChoice_of_to_int (e : InstallChoice) :
  InstallChoice_of_int (InstallChoice_to_int e) = Some e.
Proof. by destruct e. Qed.

Lemma SwapChoice_of_to_int (e : SwapChoice) :
  SwapChoice_of_int (SwapChoice_to_int e) = Some e.
Proof. by destruct e. Qed.

Lemma InstallChoice_in_range (c : Z) :
  InstallChoice_to_int NoChoice ≤ c ≤ InstallChoice_to_int Manual →
  ∃ e, InstallChoice_of_int c = Some e ∧ InstallChoice_to_int e = c.
Proof.
  simpl. intros Hc.
  assert (c = 0 ∨ c = 1 ∨ c = 2 ∨ c = 3 ∨ c = 4) as Hcases by lia.
  destruct Hcases as [->|[->|[->|[->| ->]]]]; by eexists.
Qed.

Lemma SwapChoice_in_range (c : Z) :
  SwapChoice_to_int NoSwap ≤ c ≤ SwapChoice_to_int SwapFile →
  ∃ e, SwapChoice_of_int c = Some e ∧ SwapChoice_to_int e = c.
Proof.
  simpl. intros Hc.
  assert (c = 0 ∨ c = 1 ∨ c = 2 ∨ c = 3 ∨ c = 4) as Hcases by lia.
  destruct Hcases as [->|[->|[->|[->| ->]]]]; by eexists.
Qed.

Lemma setInstallChoice_int_stores (c : Z) (this : Config) (w : World) :
  ∃ this' w', setInstallChoice_int c this w = Some (this', w') ∧
              InstallChoice_to_int (m_installChoice this') = checked_InstallChoice c.
Proof.
  change (setInstallChoice_int c this)
    with (e ← deref (InstallChoice_of_int (checked_InstallChoice c));
          setInstallChoice e this).
  destruct (InstallChoice_in_range (checked_InstallChoice c)) as (e & He & Hc').
  { unfold checked_InstallChoice. destruct (Z.ltb_spec c (InstallChoice_to_int NoChoice));
      destruct (Z.gtb_spec c (InstallChoice_to_int Manual)); simpl in *; lia. }
  rewrite M_bind_eq, He. cbn [deref].
  destruct (setInstallChoice_stores e this w) as (w' & -> & _).
  by exists (set_installChoice e this), w'.
Qed.

Lemma setSwapChoice_int_stores (c : Z) (this : Config) (w : World) :
  ∃ this' w', setSwapChoice_int c this w = Some (this', w') ∧
              SwapChoice_to_int (m_swapChoice this') = checked_SwapChoice c.
Proof.
  change (setSwapChoice_int c this)
    with (e ← deref (SwapChoice_of_int (checked_SwapChoice c));
          setSwapChoice e this).
  destruct (SwapChoice_in_range (checked_SwapChoice c)) as (e & He & Hc').
  { unfold checked_SwapChoice. destruct (Z.ltb_spec c (SwapChoice_to_int NoSwap));
      destruct (Z.gtb_spec c (SwapChoice_to_int SwapFile)); simpl in *; lia. }
  rewrite M_bind_eq, He. cbn [deref].
  destruct (setSwapChoice_stores e this w) as (w' & -> & _).
  by exists (set_swapChoice e this), w'.
Qed.

(** C6. An integer below NoChoice or above Manual makes [setInstallChoice(int)]
    behave as [setInstallChoice(NoChoice)], an integer below NoSwap or above
    SwapFile makes [setSwapChoice(int)] behave as [setSwapChoice(NoSwap)]; and
    for every integer the setter completes with a member whose raw value lies
    within the bounds of its enumeration (the argument itself when that was in
    range). *)
Theorem setChoice_int_range (this : Config) (w : World) :
  (∀ c, c < InstallChoice_to_int NoChoice ∨ InstallChoice_to_int Manual < c →
        setInstallChoice_int c this w = setInstallChoice NoChoice this w) ∧
  (∀ c, c < SwapChoice_to_int NoSwap ∨ SwapChoice_to_int SwapFile < c →
        setSwapChoice_int c this w = setSwapChoice NoSwap this w) ∧
  (∀ c, ∃ this' w',
        setInstallChoice_int c this w = Some (this', w') ∧
        InstallChoice_to_int NoChoice ≤ InstallChoice_to_int (m_installChoice this')
          ≤ InstallChoice_to_int Manual ∧
        (InstallChoice_to_int NoChoice ≤ c ≤ InstallChoice_to_int Manual →
         InstallChoice_to_int (m_installChoice this') = c)) ∧
  (∀ c, ∃ this' w',
        setSwapChoice_int c this w = Some (this', w') ∧
        SwapChoice_to_int NoSwap ≤ SwapChoice_to_int (m_swapChoice this')
          ≤ SwapChoice_to_int SwapFile ∧
        (SwapChoice_to_int NoSwap ≤ c ≤ SwapChoice_to_int SwapFile →
         SwapChoice_to_int (m_swapChoice this') = c)).
Proof.
  split_and!.
  - intros c Hc. unfold setInstallChoice_int.
    replace ((c <? InstallChoice_to_int NoChoice) || (c >? InstallChoice_to_int Manual))
      with true; [reflexivity|].
    symmetry. apply orb_true_iff. rewrite Z.ltb_lt, Z.gtb_lt. lia.
  - intros c Hc. unfold setSwapChoice_int.
    replace ((c <? SwapChoice_to_int NoSwap) || (c >? SwapChoice_to_int SwapFile))
      with true; [reflexivity|].
    symmetry. apply orb_true_iff. rewrite Z.ltb_lt, Z.gtb_lt. lia.
  - intros c. destruct (setInstallChoice_int_stores c this w) as (this' & w' & -> & Hv).
    exists this', w'. split; [done|]. split.
    + by destruct (m_installChoice this').
    + intros Hc. rewrite Hv. unfold checked_InstallChoice.
      destruct (Z.ltb_spec c (InstallChoice_to_int NoChoice));
        destruct (Z.gtb_spec c (InstallChoice_to_int Manual)); simpl in *; lia.
  - intros c. destruct (setSwapChoice_int_stores c this w) as (this' & w' & -> & Hv).
    exists this', w'. split; [done|]. split.
    + by destruct (m_swapChoice this').
    + intros Hc. rewrite Hv. unfold checked_SwapChoice.
      destruct (Z.ltb_spec c (SwapChoice_to_int NoSwap));
        destruct (Z.gtb_spec c (SwapChoice_to_int SwapFile)); simpl in *; lia.
Qed.

Lemma setChoice_int_range_witness :
  (7 < InstallChoice_to_int NoChoice ∨ InstallChoice_to_int Manual < 7) ∧
  setInstallChoice_int 7 (set_installChoice Erase config0) world0
    = setInstallChoice NoChoice (set_installChoice Erase config0) world0.
Proof.
  split; [right; reflexivity|].
  apply (proj1 (setChoice_int_range (set_installChoice Erase config0) world0) 7).
  right. reflexivity.
Defined.

(** ** fillGSSecondaryConfiguration *)

Lemma GS_contains_eq (g : GlobalStorage) (key : string) (w : World) :
  store w = Some g → GS_contains addr key w = Some (contains g key, w).
Proof. intros Hg. unfold GS_contains. by rewrite Hg. Qed.

(** The whole effect of the step, by cases on the store. *)
Lemma fillGSSecondaryConfiguration_eq (this : Config) (w : World) :
  fillGSSecondaryConfiguration this w =
  Some (tt, match store w with
            | Some g =>
                if PrimFloat.leb 0%float (m_requiredStorageGiB this)
                   && negb (contains g "requiredStorageGiB")
                then set_store (<[ "requiredStorageGiB"%string :=
                                     VDouble (m_requiredStorageGiB this) ]> g) w
                else w
            | None => w
            end).
Proof.
  unfold fillGSSecondaryConfiguration.
  rewrite M_bind_eq, globalStorage_or_null_eq. cbv beta iota.
  rewrite M_bind_eq.
  destruct (PrimFloat.leb 0%float (m_requiredStorageGiB this));
    destruct (store w) as [g|] eqn:Hg; cbn [ptr_of non_null andb];
    rewrite ?M_bind_eq, ?M_ret_eq; try reflexivity.
  erewrite GS_contains_eq by done. cbv beta iota. rewrite M_ret_eq.
  destruct (contains g "requiredStorageGiB"); cbn [negb]; [reflexivity|].
  by erewrite GS_insert_eq.
Qed.

(** C9. [fillGSSecondaryConfiguration] always completes.  It changes the
    world only when the threshold is non-negative and there is a store without
    the key requiredStorageGiB, and then only by storing the threshold under
    that key; a store that has the key is left as it is; and a second call
    right after the first changes nothing. *)
Theorem fillGSSecondaryConfiguration_effect (this : Config) (w : World) :
  ∃ w', fillGSSecondaryConfiguration this w = Some (tt, w') ∧
        (w' ≠ w →
           PrimFloat.leb 0%float (m_requiredStorageGiB this) = true ∧
           ∃ g, store w = Some g ∧ g !! "requiredStorageGiB"%string = None ∧
                w' = set_store (<[ "requiredStorageGiB"%string :=
                                     VDouble (m_requiredStorageGiB this) ]> g) w) ∧
        (PrimFloat.leb 0%float (m_requiredStorageGiB this) = true →
         ∀ g, store w = Some g → g !! "requiredStorageGiB"%string = None →
              store w' = Some (<[ "requiredStorageGiB"%string :=
                                    VDouble (m_requiredStorageGiB this) ]> g)) ∧
        (∀ g, store w = Some g → is_Some (g !! "requiredStorageGiB"%string) → w' = w) ∧
        fillGSSecondaryConfiguration this w' = Some (tt, w').
Proof.
  rewrite fillGSSecondaryConfiguration_eq. eexists. split; [reflexivity|].
  destruct (store w) as [g|] eqn:Hg.
  2: { split_and!; try done. by rewrite fillGSSecondaryConfiguration_eq, Hg. }
  destruct (PrimFloat.leb 0%float (m_requiredStorageGiB this)) eqn:Hle; cbn [andb].
  2: { split_and!; try done.
       by rewrite fillGSSecondaryConfiguration_eq, Hg, Hle. }
  destruct (contains g "requiredStorageGiB") eqn:Hc; cbn [negb].
  - split_and!; try done.
    + apply contains_true in Hc. intros _ g' [= <-] Hnone.
      rewrite Hnone in Hc. by destruct Hc.
    + by rewrite fillGSSecondaryConfiguration_eq, Hg, Hle, Hc.
  - pose proof Hc as Hnone. apply contains_false in Hnone. split_and!.
    + intros _. split; [done|]. by exists g.
    + intros _ g' [= <-] _. apply store_set_store.
    + intros g' [= <-] Hsome. rewrite Hnone in Hsome. by destruct Hsome.
    + rewrite fillGSSecondaryConfiguration_eq, store_set_store, Hle.
      assert (contains (<[ "requiredStorageGiB"%string :=
                             VDouble (m_requiredStorageGiB this) ]> g)
                "requiredStorageGiB" = true) as ->; [|done].
      apply contains_true. rewrite lookup_insert_eq. by eexists.
Qed.

Lemma fillGSSecondaryConfiguration_effect_witness :
  PrimFloat.leb 0%float (m_requiredStorageGiB config_8GiB) = true ∧
  store world0 = Some ∅ ∧
  (∅ : GlobalStorage) !! "requiredStorageGiB"%string = None ∧
  ∃ w', fillGSSecondaryConfiguration config_8GiB world0 = Some (tt, w') ∧
        store w' = Some {[ "requiredStorageGiB"%string := VDouble 8%float ]}.
Proof.
  split_and!; [reflexivity..|].
  destruct (fillGSSecondaryConfiguration_effect config_8GiB world0)
    as (w' & Hrun & _ & Hwrite & _).
  exists w'. split; [exact Hrun|].
  exact (Hwrite eq_refl ∅ eq_refl eq_refl).
Defined.

(** ** setConfigurationMap *)

Ltac simpl_config :=
  cbn [m_requiredStorageGiB m_swapChoices m_initialInstallChoice m_installChoice
       m_initialSwapChoice m_swapChoice m_allowManualPartitioning m_eraseFsTypes
       m_eraseFsTypeChoice m_requiredPartitionTableType
       set_requiredStorageGiB set_swapChoices set_initialInstallChoice
       set_installChoice set_initialSwapChoice set_swapChoice
       set_allowManualPartitioning set_eraseFsTypes set_eraseFsTypeChoice
       set_requiredPartitionTableType].

(** Reaching the store through the unchecked accessor chain. *)
Lemma unchecked_globalStorage_bind {A} (k : ptr → M A) (w : World) :
  (jq ← JobQueue_instance; gs ← JobQueue_globalStorage jq; k gs) w =
  match jobQueue w with
  | Some q => k (ptr_of (m_storage q)) w
  | None => None
  end.
Proof. destruct w as [[[[g|]]|] efi em]; reflexivity. Qed.

Lemma unchecked_globalStorage_some {A} (k : ptr → M A) (w : World) (g : GlobalStorage) :
  store w = Some g →
  (jq ← JobQueue_instance; gs ← JobQueue_globalStorage jq; k gs) w = k addr w.
Proof.
  intros Hg. rewrite unchecked_globalStorage_bind.
  destruct w as [[[[g'|]]|] efi em]; done.
Qed.

Lemma fillGSConfigurationEFI_run (configurationMap : QVariantMap) (w : World) (g : GlobalStorage) :
  store w = Some g →
  ∃ w', fillGSConfigurationEFI addr configurationMap w = Some (tt, w') ∧
        is_Some (store w') ∧ emitted w' = emitted w.
Proof.
  intros Hg. unfold fillGSConfigurationEFI.
  rewrite M_bind_eq. unfold PartUtils_isEfiSystem. cbv beta iota zeta.
  rewrite M_bind_eq. erewrite GS_insert_eq by exact Hg. cbv beta iota.
  rewrite M_bind_eq. erewrite GS_insert_eq by apply store_set_store. cbv beta iota.
  rewrite M_bind_eq.
  destruct (contains configurationMap "efiSystemPartitionSize");
    [erewrite GS_insert_eq by apply store_set_store|rewrite M_ret_eq];
    cbv beta iota;
    (destruct (contains configurationMap "efiSystemPartitionName");
     [erewrite GS_insert_eq by apply store_set_store|rewrite M_ret_eq]);
    eexists; (split; [reflexivity|]); split; try reflexivity; by eexists.
Qed.

Section SetConfigurationMapFacts.
Context `{QSetOrder}.

(** With a store, loading completes; without one it faults, at the
    unchecked publishing of requiredPartitionTableType. *)
Lemma setConfigurationMap_run (configurationMap : QVariantMap) (this : Config) (w : World) :
  ∃ c, applied_swap_choice configurationMap c ∧
       match store w with
       | Some _ =>
           ∃ this' w', setConfigurationMap configurationMap this w = Some (this', w') ∧
                       m_swapChoices this' = getSwapChoices configurationMap ∧
                       m_initialSwapChoice this' = c ∧
                       m_swapChoice this' = c ∧
                       is_Some (store w')
       | None => setConfigurationMap configurationMap this w = None
       end.
Proof.
  unfold setConfigurationMap, applied_swap_choice. cbv zeta.
  rewrite M_bind_eq.
  match goal with
  | |- context [setInstallChoice ?c ?t w] =>
      destruct (setInstallChoice_stores c t w) as (w1 & -> & Hav1 & Hnone1 & _)
  end.
  cbv beta iota. simpl_config.
  set (parsed := fst (NamedEnumTable.find swapChoiceNames _)).
  rewrite M_bind_eq.
  assert (∃ c, (if bool_decide (parsed ∈ getSwapChoices configurationMap)
                then c = parsed
                else pickOne (getSwapChoices configurationMap) = Some c))
    as [c Hc].
  { case_bool_decide; [by eexists|]. apply pickOne_total. }
  exists c. split; [exact Hc|].
  match goal with
  | |- context [match ?step w1 with _ => _ end] =>
      assert (∃ t, step w1 = Some (t, w1) ∧
                   m_swapChoices t = getSwapChoices configurationMap ∧
                   m_initialSwapChoice t = c)
        as (t & -> & Hset & Hinit)
  end.
  { case_bool_decide; cbn [negb].
    - rewrite M_ret_eq. eexists. by subst c.
    - rewrite M_bind_eq, Hc. cbn [deref]. rewrite M_ret_eq. by eexists. }
  cbv beta iota. rewrite M_bind_eq, Hinit.
  destruct (setSwapChoice_stores c t w1) as (w2 & -> & Hav2 & Hnone2 & _).
  cbv beta iota. rewrite M_bind_eq.
  match goal with
  | |- context [match ?step w2 with _ => _ end] =>
      assert (∃ t' w3, step w2 = Some (t', w3) ∧
                       m_swapChoices t' = getSwapChoices configurationMap ∧
                       m_initialSwapChoice t' = c ∧ m_swapChoice t' = c ∧
                       store w3 = store w2)
        as (t' & w3 & -> & Hset' & Hinit' & Hcur' & Hst3)
  end.
  { destruct (contains configurationMap "availableFileSystemTypes").
    - destruct (CalamaresUtils.getStringList configurationMap
                  "availableFileSystemTypes" []) as [|first rest].
      + rewrite M_ret_eq. by do 2 eexists.
      + rewrite M_bind_eq. unfold Q_EMIT. cbv beta iota. rewrite M_ret_eq.
        by do 2 eexists.
    - rewrite M_ret_eq. by do 2 eexists. }
  cbv beta iota.
  destruct (store w) as [g|] eqn:Hg.
  - assert (is_Some (store w3)) as [g3 Hg3].
    { rewrite Hst3. apply Hav2, Hav1. by eexists. }
    erewrite unchecked_globalStorage_some by exact Hg3.
    rewrite M_bind_eq. erewrite GS_insert_eq by exact Hg3. cbv beta iota.
    rewrite M_bind_eq.
    edestruct fillGSConfigurationEFI_run as (w4 & -> & Hav4 & _);
      [apply store_set_store|].
    cbv beta iota. rewrite M_ret_eq. by do 2 eexists.
  - assert (store w3 = None) as Hg3.
    { rewrite Hst3. by apply Hnone2, Hnone1. }
    rewrite unchecked_globalStorage_bind.
    destruct (jobQueue w3) as [q|]; [|reflexivity].
    rewrite M_bind_eq. by rewrite GS_insert_fault.
Qed.
(** Outside the resolved set, the parsed choice is replaced by [pickOne]. *)
Lemma setConfigurationMap_applies_pickOne
    (configurationMap : QVariantMap) (this : Config) (w : World) (g : GlobalStorage) :
  store w = Some g →
  fst (NamedEnumTable.find swapChoiceNames
         (CalamaresUtils.getString configurationMap "initialSwapChoice" EmptyString))
    ∉ getSwapChoices configurationMap →
  ∃ c this' w',
    pickOne (getSwapChoices configurationMap) = Some c ∧
    setConfigurationMap configurationMap this w = Some (this', w') ∧
    m_initialSwapChoice this' = c ∧
    m_swapChoice this' = c.
Proof.
  intros Hg Hnotin.
  destruct (setConfigurationMap_run configurationMap this w) as (c & Hc & Hrun).
  unfold applied_swap_choice in Hc. cbv zeta in Hc.
  rewrite bool_decide_eq_false_2 in Hc by exact Hnotin.
  rewrite Hg in Hrun. destruct Hrun as (this' & w' & Hrun & _ & Hinit & Hcur & _).
  by exists c, this', w'.
Qed.

(** Inside the resolved set, the parsed choice is applied as it is. *)
Lemma setConfigurationMap_applies_parsed
    (configurationMap : QVariantMap) (this : Config) (w : World) (g : GlobalStorage) :
  store w = Some g →
  fst (NamedEnumTable.find swapChoiceNames
         (CalamaresUtils.getString configurationMap "initialSwapChoice" EmptyString))
    ∈ getSwapChoices configurationMap →
  ∃ this' w',
    setConfigurationMap configurationMap this w = Some (this', w') ∧
    m_swapChoice this' =
      fst (NamedEnumTable.find swapChoiceNames
             (CalamaresUtils.getString configurationMap "initialSwapChoice" EmptyString)).
Proof.
  intros Hg Hin.
  destruct (setConfigurationMap_run configurationMap this w) as (c & Hc & Hrun).
  unfold applied_swap_choice in Hc. cbv zeta in Hc.
  rewrite bool_decide_eq_true_2 in Hc by exact Hin. subst c.
  rewrite Hg in Hrun. destruct Hrun as (this' & w' & Hrun & _ & _ & Hcur & _).
  by exists this', w'.
Qed.
End SetConfigurationMapFacts.

(** C7. When the swap choice parsed from initialSwapChoice is not in the
    resolved set, [setConfigurationMap] (run against a world that has a store)
    completes having applied [pickOne] of that set: it is the initial and the
    current swap choice afterwards.  In particular initialSwapChoice = "file"
    with userSwapChoices = ["suspend"] ends with FullSwap. *)
Theorem setConfigurationMap_swap_fallback `{QSetOrder} :
  (∀ (configurationMap : QVariantMap) (this : Config) (w : World) (g : GlobalStorage),
     store w = Some g →
     fst (NamedEnumTable.find swapChoiceNames
            (CalamaresUtils.getString configurationMap "initialSwapChoice" EmptyString))
       ∉ getSwapChoices configurationMap →
     ∃ c this' w',
       pickOne (getSwapChoices configurationMap) = Some c ∧
       setConfigurationMap configurationMap this w = Some (this', w') ∧
       m_initialSwapChoice this' = c ∧
       m_swapChoice this' = c) ∧
  (∀ (this : Config) (w : World) (g : GlobalStorage),
     store w = Some g →
     ∃ this' w',
       setConfigurationMap file_vs_suspend this w = Some (this', w') ∧
       m_initialSwapChoice this' = FullSwap ∧
       m_swapChoice this' = FullSwap).
Proof.
  split; [apply setConfigurationMap_applies_pickOne|].
  intros this w g Hg.
  assert (getSwapChoices file_vs_suspend = {[ FullSwap ]}) as Hset by by vm_compute.
  destruct (setConfigurationMap_applies_pickOne file_vs_suspend this w g Hg)
    as (c & this' & w' & Hc & Hrun & ? & ?).
  { rewrite Hset. intros Hin%elem_of_singleton. vm_compute in Hin. discriminate Hin. }
  rewrite Hset, pickOne_singleton in Hc. injection Hc as <-.
  by exists this', w'.
Qed.

Lemma setConfigurationMap_swap_fallback_witness :
  store world0 = Some ∅ ∧
  (fst (NamedEnumTable.find swapChoiceNames
          (CalamaresUtils.getString file_vs_suspend "initialSwapChoice" EmptyString))
     ∉ getSwapChoices file_vs_suspend) ∧
  ∃ c this' w',
    pickOne (H := elements_order) (getSwapChoices file_vs_suspend) = Some c ∧
    setConfigurationMap (H := elements_order) file_vs_suspend config0 world0
      = Some (this', w') ∧
    m_initialSwapChoice this' = c ∧
    m_swapChoice this' = c.
Proof.
  assert (fst (NamedEnumTable.find swapChoiceNames
                 (CalamaresUtils.getString file_vs_suspend "initialSwapChoice" EmptyString))
            ∉ getSwapChoices file_vs_suspend) as Hnotin.
  { replace (getSwapChoices file_vs_suspend) with ({[ FullSwap ]} : SwapChoiceSet)
      by by vm_compute.
    intros Hin%elem_of_singleton. vm_compute in Hin. discriminate Hin. }
  split; [reflexivity|]. split; [exact Hnotin|].
  exact (proj1 (setConfigurationMap_swap_fallback (H := elements_order))
           file_vs_suspend config0 world0 ∅ eq_refl Hnotin).
Defined.

(** C10. [setConfigurationMap] completes exactly when the world has a shared
    store: it reaches the store through the unchecked accessor chain and
    faults otherwise.  [updateGlobalStorage] and [fillGSSecondaryConfiguration]
    complete in every world, and without a store they leave the world as it
    is. *)
Theorem store_precondition `{QSetOrder} :
  (∀ (configurationMap : QVariantMap) (this : Config) (w : World),
     is_Some (setConfigurationMap configurationMap this w) ↔ is_Some (store w)) ∧
  (∀ (ic : InstallChoice) (sc : SwapChoice) (w : World),
     is_Some (updateGlobalStorage ic sc w) ∧
     (store w = None → updateGlobalStorage ic sc w = Some (tt, w))) ∧
  (∀ (this : Config) (w : World),
     is_Some (fillGSSecondaryConfiguration this w) ∧
     (store w = None → fillGSSecondaryConfiguration this w = Some (tt, w))).
Proof.
  split_and!.
  - intros cm this w.
    destruct (setConfigurationMap_run cm this w) as (c & _ & Hrun).
    destruct (store w) as [g|].
    + destruct Hrun as (this' & w' & -> & _). split; by eexists.
    + rewrite Hrun. split; by intros [? ?].
  - intros ic sc w. rewrite updateGlobalStorage_eq. split; [by eexists|].
    by intros ->.
  - intros this w. rewrite fillGSSecondaryConfiguration_eq. split; [by eexists|].
    by intros ->.
Qed.

Lemma store_precondition_witness :
  store no_queue = None ∧
  setConfigurationMap (H := elements_order) ∅ config0 no_queue = None ∧
  updateGlobalStorage Erase SmallSwap no_queue = Some (tt, no_queue) ∧
  fillGSSecondaryConfiguration config0 no_queue = Some (tt, no_queue).
Proof.
  pose proof (store_precondition (H := elements_order)) as (Hload & Hupdate & Hfill).
  split_and!.
  - reflexivity.
  - destruct (setConfigurationMap ∅ config0 no_queue) as [r|] eqn:Hrun; [|reflexivity].
    assert (is_Some (store no_queue)) as [g Hg]
      by (apply (Hload ∅ config0 no_queue); rewrite Hrun; by eexists).
    discriminate Hg.
  - apply Hupdate. reflexivity.
  - apply Hfill. reflexivity.
Defined.


(** * Further properties of the code *)

(** ** The resolver *)

(** X1. Whatever the configuration, ReuseSwap is not among the resolved swap
    choices, and every resolved choice is one of the other four. *)
Theorem resolver_never_offers_ReuseSwap (configurationMap : QVariantMap) :
  (ReuseSwap ∉ getSwapChoices configurationMap) ∧
  getSwapChoices configurationMap ⊆ {[ NoSwap; SmallSwap; FullSwap; SwapFile ]}.
Proof.
  assert (ReuseSwap ∉ getSwapChoices configurationMap) as Hno.
  { unfold getSwapChoices. rewrite COMPLAIN_UNSUPPORTED_difference.
    intros [_ Hn]%elem_of_difference. by apply Hn, elem_of_singleton. }
  split; [exact Hno|].
  intros x Hx. destruct x; try set_solver.
Qed.

(** X2. The resolver returns the empty set exactly when userSwapChoices is
    present, one of its entries names ReuseSwap and none of its entries names
    any other swap choice. *)
Theorem resolver_empty_exactly_when_only_reuse (configurationMap : QVariantMap) :
  getSwapChoices configurationMap = ∅ ↔
  ∃ v, configurationMap !! "userSwapChoices"%string = Some v ∧
       (∃ item, item ∈ toStringList v ∧ (item, ReuseSwap) ∈ swapChoiceNames) ∧
       (∀ item x, item ∈ toStringList v → (item, x) ∈ swapChoiceNames → x = ReuseSwap).
Proof. apply getSwapChoices_empty_iff. Qed.

(** What the resolver reads of the map once userSwapChoices is present. *)
Lemma getSwapChoices_with_user (configurationMap : QVariantMap) (v : QVariant) :
  configurationMap !! "userSwapChoices"%string = Some v →
  getSwapChoices configurationMap =
  (let choices := foldl insert_named ∅ (toStringList v) in
   if bool_decide (choices = ∅) then {[ FullSwap ]} ∪ choices else choices)
    ∖ {[ ReuseSwap ]}.
Proof.
  intros Hv. unfold getSwapChoices.
  assert (contains configurationMap "userSwapChoices" = true) as ->
    by (apply contains_true; by eexists).
  unfold at_key. rewrite Hv. cbn [from_option id].
  apply COMPLAIN_UNSUPPORTED_difference.
Qed.

(** X3. Once userSwapChoices is present, nothing else in the map matters to
    the resolver: two maps with the same userSwapChoices resolve to the same
    set, whatever their neverCreateSwap and ensureSuspendToDisk say. *)
Theorem resolver_modern_precedence (m1 m2 : QVariantMap) (v : QVariant) :
  m1 !! "userSwapChoices"%string = Some v →
  m2 !! "userSwapChoices"%string = Some v →
  getSwapChoices m1 = getSwapChoices m2.
Proof.
  intros H1 H2.
  by rewrite (getSwapChoices_with_user m1 v H1), (getSwapChoices_with_user m2 v H2).
Qed.

Lemma resolver_modern_precedence_witness :
  getSwapChoices small_never = getSwapChoices small_only.
Proof.
  apply (resolver_modern_precedence small_never small_only
           (VStringList [ "small"%string ])); reflexivity.
Defined.

(** X4. The resolved set depends on which entries userSwapChoices has, not on
    their order or on repetitions. *)
Theorem resolver_ignores_order (m1 m2 : QVariantMap) (v1 v2 : QVariant) :
  m1 !! "userSwapChoices"%string = Some v1 →
  m2 !! "userSwapChoices"%string = Some v2 →
  (∀ item, item ∈ toStringList v1 ↔ item ∈ toStringList v2) →
  getSwapChoices m1 = getSwapChoices m2.
Proof.
  intros H1 H2 Hsame. apply leibniz_equiv. intros x.
  rewrite (elem_of_getSwapChoices_user m1 v1 H1 x),
          (elem_of_getSwapChoices_user m2 v2 H2 x).
  assert (∀ y, (∃ item, item ∈ toStringList v1 ∧ (item, y) ∈ swapChoiceNames) ↔
               (∃ item, item ∈ toStringList v2 ∧ (item, y) ∈ swapChoiceNames)) as Hnamed.
  { intros y. split; intros (item & Hitem & Hy); exists item; split; try done;
      by apply Hsame. }
  assert ((∃ y item, item ∈ toStringList v1 ∧ (item, y) ∈ swapChoiceNames) ↔
          (∃ y item, item ∈ toStringList v2 ∧ (item, y) ∈ swapChoiceNames)) as Hany.
  { split; intros (y & Hy); exists y; by apply Hnamed. }
  by rewrite Hnamed, Hany.
Qed.

Lemma resolver_ignores_order_witness :
  getSwapChoices small_none_small = getSwapChoices none_small.
Proof.
  apply (resolver_ignores_order small_none_small none_small
           (VStringList [ "small"%string; "none"%string; "small"%string ])
           (VStringList [ "none"%string; "small"%string ])); [reflexivity..|].
  intros item. cbn [toStringList]. rewrite !elem_of_cons, elem_of_nil. tauto.
Defined.

(** ** pickOne *)

(** X5. From a non-empty set [pickOne] returns one of its members, whatever
    the iteration order of the set. *)
Theorem pickOne_picks_member `{QSetOrder} (s : SwapChoiceSet) :
  s ≠ ∅ → ∃ x, pickOne s = Some x ∧ x ∈ s.
Proof.
  intros Hs. destruct (pickOne_total s) as [x Hx].
  exists x. split; [done|]. by apply pickOne_elem.
Qed.

Lemma pickOne_picks_member_witness :
  ∃ x, pickOne (H := elements_order) {[ SmallSwap; SwapFile ]} = Some x ∧
       x ∈ ({[ SmallSwap; SwapFile ]} : SwapChoiceSet).
Proof.
  apply (pickOne_picks_member (H := elements_order)).
  intros Hempty. apply (not_elem_of_empty (C := SwapChoiceSet) SmallSwap).
  rewrite <- Hempty. set_solver.
Defined.

(** ** The setters and the publisher *)

Lemma updateGlobalStorage_publish (ic : InstallChoice) (sc : SwapChoice) (w : World) :
  updateGlobalStorage ic sc w = Some (tt, publish ic sc w).
Proof. apply updateGlobalStorage_eq. Qed.

Lemma store_publish (ic : InstallChoice) (sc : SwapChoice) (w : World) :
  store (publish ic sc w)
  = <[ "partitionChoices"%string := partitionChoices_record ic sc ]> <$> store w.
Proof. unfold publish. by destruct (store w) as [g|] eqn:Hg. Qed.

Lemma emitted_publish (ic : InstallChoice) (sc : SwapChoice) (w : World) :
  emitted (publish ic sc w) = emitted w.
Proof. unfold publish. by destruct (store w). Qed.

Lemma isEfiSystem_publish (ic : InstallChoice) (sc : SwapChoice) (w : World) :
  isEfiSystem (publish ic sc w) = isEfiSystem w.
Proof. unfold publish. by destruct (store w). Qed.

(** The typed setters as equations on the world. *)
Lemma setInstallChoice_eq (c : InstallChoice) (this : Config) (w : World) :
  setInstallChoice c this w =
  Some (set_installChoice c this,
        if bool_decide (c ≠ m_installChoice this)
        then publish c (m_swapChoice this) (notify (installChoiceChanged c) w)
        else w).
Proof.
  case_bool_decide as Hc.
  - unfold setInstallChoice. rewrite bool_decide_eq_true_2 by done.
    cbv zeta. rewrite M_bind_eq. unfold Q_EMIT. cbv beta iota.
    by rewrite M_bind_eq, updateGlobalStorage_publish.
  - destruct (decide (c = m_installChoice this)) as [->|]; [|done].
    by rewrite setInstallChoice_same, set_installChoice_same.
Qed.

Lemma setSwapChoice_eq (c : SwapChoice) (this : Config) (w : World) :
  setSwapChoice c this w =
  Some (set_swapChoice c this,
        if bool_decide (c ≠ m_swapChoice this)
        then publish (m_installChoice this) c (notify (swapChoiceChanged c) w)
        else w).
Proof.
  case_bool_decide as Hc.
  - unfold setSwapChoice. rewrite bool_decide_eq_true_2 by done.
    cbv zeta. rewrite M_bind_eq. unfold Q_EMIT. cbv beta iota.
    by rewrite M_bind_eq, updateGlobalStorage_publish.
  - destruct (decide (c = m_swapChoice this)) as [->|]; [|done].
    by rewrite setSwapChoice_same, set_swapChoice_same.
Qed.

(** X6. A setter called again with the value it has just been given does
    nothing: the second call returns the Config object and the world of the
    first.  This holds for the typed setters and for the integer setters. *)
Theorem setters_idempotent (this : Config) (w : World) :
  (∀ c, ∃ this' w', setInstallChoice c this w = Some (this', w') ∧
                    setInstallChoice c this' w' = Some (this', w')) ∧
  (∀ c, ∃ this' w', setSwapChoice c this w = Some (this', w') ∧
                    setSwapChoice c this' w' = Some (this', w')) ∧
  (∀ c, ∃ this' w', setInstallChoice_int c this w = Some (this', w') ∧
                    setInstallChoice_int c this' w' = Some (this', w')) ∧
  (∀ c, ∃ this' w', setSwapChoice_int c this w = Some (this', w') ∧
                    setSwapChoice_int c this' w' = Some (this', w')).
Proof.
  assert (∀ c t v, ∃ t' v', setInstallChoice c t v = Some (t', v') ∧
                            setInstallChoice c t' v' = Some (t', v')) as Hinstall.
  { intros c t v. rewrite setInstallChoice_eq. do 2 eexists. split; [reflexivity|].
    apply (setInstallChoice_same (set_installChoice c t)). }
  assert (∀ c t v, ∃ t' v', setSwapChoice c t v = Some (t', v') ∧
                            setSwapChoice c t' v' = Some (t', v')) as Hswap.
  { intros c t v. rewrite setSwapChoice_eq. do 2 eexists. split; [reflexivity|].
    apply (setSwapChoice_same (set_swapChoice c t)). }
  split_and!; [intros c; apply Hinstall|intros c; apply Hswap| |].
  - intros c.
    destruct (InstallChoice_in_range (checked_InstallChoice c)) as (e & He & _).
    { unfold checked_InstallChoice.
      destruct (Z.ltb_spec c (InstallChoice_to_int NoChoice));
        destruct (Z.gtb_spec c (InstallChoice_to_int Manual)); simpl in *; lia. }
    assert (∀ t v, setInstallChoice_int c t v = setInstallChoice e t v) as Hrun.
    { intros t v.
      change (setInstallChoice_int c t)
        with (e' ← deref (InstallChoice_of_int (checked_InstallChoice c));
              setInstallChoice e' t).
      by rewrite M_bind_eq, He. }
    destruct (Hinstall e this w) as (this' & w' & H1 & H2).
    exists this', w'. by rewrite !Hrun.
  - intros c.
    destruct (SwapChoice_in_range (checked_SwapChoice c)) as (e & He & _).
    { unfold checked_SwapChoice.
      destruct (Z.ltb_spec c (SwapChoice_to_int NoSwap));
        destruct (Z.gtb_spec c (SwapChoice_to_int SwapFile)); simpl in *; lia. }
    assert (∀ t v, setSwapChoice_int c t v = setSwapChoice e t v) as Hrun.
    { intros t v.
      change (setSwapChoice_int c t)
        with (e' ← deref (SwapChoice_of_int (checked_SwapChoice c));
              setSwapChoice e' t).
      by rewrite M_bind_eq, He. }
    destruct (Hswap e this w) as (this' & w' & H1 & H2).
    exists this', w'. by rewrite !Hrun.
Qed.

(** X7. The integer setter given the integer of an enumerator does what the
    typed setter does with that enumerator. *)
Theorem int_setter_of_enumerator (this : Config) (w : World) :
  (∀ e, setInstallChoice_int (InstallChoice_to_int e) this w = setInstallChoice e this w) ∧
  (∀ e, setSwapChoice_int (SwapChoice_to_int e) this w = setSwapChoice e this w).
Proof.
  split; intros e.
  - change (setInstallChoice_int (InstallChoice_to_int e) this)
      with (e' ← deref (InstallChoice_of_int (checked_InstallChoice (InstallChoice_to_int e)));
            setInstallChoice e' this).
    rewrite M_bind_eq.
    replace (checked_InstallChoice (InstallChoice_to_int e)) with (InstallChoice_to_int e)
      by by destruct e.
    by rewrite InstallChoice_of_to_int.
  - change (setSwapChoice_int (SwapChoice_to_int e) this)
      with (e' ← deref (SwapChoice_of_int (checked_SwapChoice (SwapChoice_to_int e)));
            setSwapChoice e' this).
    rewrite M_bind_eq.
    replace (checked_SwapChoice (SwapChoice_to_int e)) with (SwapChoice_to_int e)
      by by destruct e.
    by rewrite SwapChoice_of_to_int.
Qed.

(** X8. The record in the store follows the Config: a setter call that
    changes a choice leaves the record of both current choices in the store,
    and a call that changes nothing keeps an agreeing record agreeing. *)
Theorem setters_keep_record_in_step (this : Config) (w : World) :
  (∀ c, c ≠ m_installChoice this ∨ record_in_step this w →
        ∃ this' w', setInstallChoice c this w = Some (this', w') ∧
                    record_in_step this' w') ∧
  (∀ c, c ≠ m_swapChoice this ∨ record_in_step this w →
        ∃ this' w', setSwapChoice c this w = Some (this', w') ∧
                    record_in_step this' w').
Proof.
  split; intros c Hpre.
  - rewrite setInstallChoice_eq. do 2 eexists. split; [reflexivity|].
    case_bool_decide as Hc.
    + intros g. rewrite store_publish, store_notify.
      destruct (store w) as [g0|]; [|done]. intros [= <-]. apply lookup_insert_eq.
    + destruct Hpre as [?|Hpre]; [done|].
      destruct (decide (c = m_installChoice this)) as [->|]; [|done].
      by rewrite set_installChoice_same.
  - rewrite setSwapChoice_eq. do 2 eexists. split; [reflexivity|].
    case_bool_decide as Hc.
    + intros g. rewrite store_publish, store_notify.
      destruct (store w) as [g0|]; [|done]. intros [= <-]. apply lookup_insert_eq.
    + destruct Hpre as [?|Hpre]; [done|].
      destruct (decide (c = m_swapChoice this)) as [->|]; [|done].
      by rewrite set_swapChoice_same.
Qed.

Lemma setters_keep_record_in_step_witness :
  ∃ this' w', setSwapChoice SwapFile config0 world0 = Some (this', w') ∧
              record_in_step this' w'.
Proof.
  apply (proj2 (setters_keep_record_in_step config0 world0) SwapFile).
  left. discriminate.
Defined.

Lemma publish_publish (a c : InstallChoice) (b d : SwapChoice) (w : World) :
  publish c d (publish a b w) = publish c d w.
Proof.
  unfold publish at 1 3. rewrite store_publish.
  destruct (store w) as [g|] eqn:Hg; cbn [fmap option_fmap option_map].
  - unfold publish. rewrite Hg. unfold set_store. cbn [isEfiSystem emitted].
    by rewrite insert_insert_eq.
  - unfold publish. by rewrite Hg.
Qed.

(** X9. [updateGlobalStorage] overwrites: of two calls in a row only the
    second one shows, so a repeated call changes nothing; it writes no key but
    partitionChoices and emits no signal. *)
Theorem updateGlobalStorage_last_wins
    (a c : InstallChoice) (b d : SwapChoice) (w : World) :
  (updateGlobalStorage a b;; updateGlobalStorage c d) w = updateGlobalStorage c d w ∧
  ∃ w', updateGlobalStorage c d w = Some (tt, w') ∧
        emitted w' = emitted w ∧
        isEfiSystem w' = isEfiSystem w ∧
        ∀ g, store w = Some g →
             ∃ g', store w' = Some g' ∧
                   ∀ key, key ≠ "partitionChoices"%string → g' !! key = g !! key.
Proof.
  split.
  - rewrite M_bind_eq, !updateGlobalStorage_publish.
    by rewrite publish_publish.
  - rewrite updateGlobalStorage_publish. eexists. split; [reflexivity|].
    rewrite emitted_publish, isEfiSystem_publish, store_publish.
    split_and!; [done..|]. intros g ->. eexists. split; [reflexivity|].
    intros key Hkey. by rewrite lookup_insert_ne.
Qed.

(** X10. What is published can be read back: the record stored under
    partitionChoices holds, under install and swap, names that the two name
    tables map back to the published choices. *)
Theorem published_choices_read_back
    (ic : InstallChoice) (sc : SwapChoice) (w : World) (g : GlobalStorage) :
  store w = Some g →
  ∃ w' g' m,
    updateGlobalStorage ic sc w = Some (tt, w') ∧
    store w' = Some g' ∧
    g' !! "partitionChoices"%string = Some (VMap m) ∧
    NamedEnumTable.find installChoiceNames
      (CalamaresUtils.getString m "install" EmptyString) = (ic, true) ∧
    NamedEnumTable.find swapChoiceNames
      (CalamaresUtils.getString m "swap" EmptyString) = (sc, true).
Proof.
  intros Hg. rewrite updateGlobalStorage_publish.
  eexists _, _, _. split; [reflexivity|].
  rewrite store_publish, Hg. split; [reflexivity|].
  split; [apply lookup_insert_eq|].
  split; [by destruct ic|by destruct sc].
Qed.

Lemma published_choices_read_back_witness :
  ∃ w' g' m,
    updateGlobalStorage Erase SwapFile world0 = Some (tt, w') ∧
    store w' = Some g' ∧
    g' !! "partitionChoices"%string = Some (VMap m) ∧
    NamedEnumTable.find installChoiceNames
      (CalamaresUtils.getString m "install" EmptyString) = (Erase, true) ∧
    NamedEnumTable.find swapChoiceNames
      (CalamaresUtils.getString m "swap" EmptyString) = (SwapFile, true).
Proof. exact (published_choices_read_back Erase SwapFile world0 ∅ eq_refl). Defined.

(** ** setEraseFsTypeChoice *)

(** X11. [setEraseFsTypeChoice] stores the canonical name of its argument.
    It emits eraseModeFilesystemChanged exactly when that name differs from
    the one held, it never touches the job queue or the store, and a second
    call with the same argument does nothing.  This holds for every
    canonicalisation. *)
Theorem setEraseFsTypeChoice_effect
    (canonicalFilesystemName : string → string)
    (choice : string) (this : Config) (w : World) :
  ∃ w', setEraseFsTypeChoice canonicalFilesystemName choice this w
          = Some (set_eraseFsTypeChoice (canonicalFilesystemName choice) this, w') ∧
        jobQueue w' = jobQueue w ∧
        isEfiSystem w' = isEfiSystem w ∧
        emitted w' =
          emitted w ++
          (if bool_decide (canonicalFilesystemName choice ≠ m_eraseFsTypeChoice this)
           then [ eraseModeFilesystemChanged (canonicalFilesystemName choice) ]
           else []) ∧
        setEraseFsTypeChoice canonicalFilesystemName choice
          (set_eraseFsTypeChoice (canonicalFilesystemName choice) this) w'
          = Some (set_eraseFsTypeChoice (canonicalFilesystemName choice) this, w').
Proof.
  assert (∀ t v, canonicalFilesystemName choice = m_eraseFsTypeChoice t →
                 setEraseFsTypeChoice canonicalFilesystemName choice t v = Some (t, v))
    as Hsame.
  { intros t v Heq. unfold setEraseFsTypeChoice. cbv zeta.
    by rewrite bool_decide_eq_false_2 by auto. }
  unfold setEraseFsTypeChoice at 1. cbv zeta. case_bool_decide as Hc.
  - rewrite M_bind_eq. unfold Q_EMIT. cbv beta iota. rewrite M_ret_eq.
    eexists. split_and!; try reflexivity. by apply Hsame.
  - destruct (decide (canonicalFilesystemName choice = m_eraseFsTypeChoice this))
      as [Heq|]; [|done].
    rewrite M_ret_eq. exists w.
    assert (set_eraseFsTypeChoice (canonicalFilesystemName choice) this = this) as ->
      by (rewrite Heq; by destruct this).
    split_and!; try done.
    + by rewrite app_nil_r.
    + by apply Hsame.
Qed.

(** ** fillGSConfigurationEFI *)

Lemma set_store_set_store (g1 g2 : GlobalStorage) (w : World) :
  set_store g2 (set_store g1 w) = set_store g2 w.
Proof. reflexivity. Qed.

Lemma fillGSConfigurationEFI_eq
    (configurationMap : QVariantMap) (w : World) (g : GlobalStorage) :
  store w = Some g →
  fillGSConfigurationEFI addr configurationMap w
  = Some (tt, set_store (efi_keys configurationMap (isEfiSystem w) g) w).
Proof.
  intros Hg. unfold fillGSConfigurationEFI, efi_keys.
  rewrite M_bind_eq. unfold PartUtils_isEfiSystem. cbv beta iota zeta.
  rewrite M_bind_eq. erewrite GS_insert_eq by exact Hg. cbv beta iota.
  rewrite M_bind_eq. erewrite GS_insert_eq by apply store_set_store. cbv beta iota.
  rewrite M_bind_eq.
  destruct (contains configurationMap "efiSystemPartitionSize");
    [erewrite GS_insert_eq by apply store_set_store|rewrite M_ret_eq];
    cbv beta iota;
    (destruct (contains configurationMap "efiSystemPartitionName");
     [erewrite GS_insert_eq by apply store_set_store|rewrite M_ret_eq]);
    reflexivity.
Qed.

Lemma fillGSConfigurationEFI_null (configurationMap : QVariantMap) (w : World) :
  fillGSConfigurationEFI nullptr configurationMap w = None.
Proof. reflexivity. Qed.

Lemma fillGSConfigurationEFI_no_store
    (gs : ptr) (configurationMap : QVariantMap) (w : World) :
  store w = None → fillGSConfigurationEFI gs configurationMap w = None.
Proof.
  intros Hg. unfold fillGSConfigurationEFI.
  rewrite M_bind_eq. unfold PartUtils_isEfiSystem. cbv beta iota zeta.
  rewrite M_bind_eq. by rewrite GS_insert_fault.
Qed.

(** Lookups in the store that [fillGSConfigurationEFI] leaves. *)
Lemma lookup_efi_keys (configurationMap : QVariantMap) (efi : bool) (g : GlobalStorage) :
  efi_keys configurationMap efi g !! "firmwareType"%string
    = Some (VString (if efi then "efi" else "bios")) ∧
  efi_keys configurationMap efi g !! "efiSystemPartition"%string
    = Some (VString (CalamaresUtils.getString configurationMap
                       "efiSystemPartition" "/boot/efi")) ∧
  efi_keys configurationMap efi g !! "efiSystemPartitionSize"%string
    = (if contains configurationMap "efiSystemPartitionSize"
       then Some (VString (CalamaresUtils.getString configurationMap
                             "efiSystemPartitionSize" EmptyString))
       else g !! "efiSystemPartitionSize"%string) ∧
  efi_keys configurationMap efi g !! "efiSystemPartitionName"%string
    = (if contains configurationMap "efiSystemPartitionName"
       then Some (VString (CalamaresUtils.getString configurationMap
                             "efiSystemPartitionName" EmptyString))
       else g !! "efiSystemPartitionName"%string) ∧
  (∀ key, key ∉ [ "firmwareType"; "efiSystemPartition"; "efiSystemPartitionSize";
                  "efiSystemPartitionName" ]%string →
          efi_keys configurationMap efi g !! key = g !! key).
Proof.
  unfold efi_keys. cbv zeta.
  destruct (contains configurationMap "efiSystemPartitionSize");
    destruct (contains configurationMap "efiSystemPartitionName").
  all: split_and!; try by simplify_map_eq.
  all: intros key Hkey; rewrite !not_elem_of_cons in Hkey;
       destruct Hkey as (? & ? & ? & ? & _); by simplify_map_eq.
Qed.

(** X12. [fillGSConfigurationEFI] faults on a null store pointer and in a
    world without a store.  Otherwise it completes, emits nothing, publishes
    firmwareType as "efi" or "bios" after the firmware probe and
    efiSystemPartition (default "/boot/efi"), publishes efiSystemPartitionSize
    and efiSystemPartitionName exactly when the configuration has the key, and
    leaves every other key of the store as it was. *)
Theorem fillGSConfigurationEFI_effect (configurationMap : QVariantMap) (w : World) :
  fillGSConfigurationEFI nullptr configurationMap w = None ∧
  (∀ gs, store w = None → fillGSConfigurationEFI gs configurationMap w = None) ∧
  (∀ g, store w = Some g →
     ∃ w' g',
       fillGSConfigurationEFI addr configurationMap w = Some (tt, w') ∧
       store w' = Some g' ∧
       emitted w' = emitted w ∧
       isEfiSystem w' = isEfiSystem w ∧
       g' !! "firmwareType"%string
         = Some (VString (if isEfiSystem w then "efi" else "bios")) ∧
       g' !! "efiSystemPartition"%string
         = Some (VString (CalamaresUtils.getString configurationMap
                            "efiSystemPartition" "/boot/efi")) ∧
       g' !! "efiSystemPartitionSize"%string
         = (if contains configurationMap "efiSystemPartitionSize"
            then Some (VString (CalamaresUtils.getString configurationMap
                                  "efiSystemPartitionSize" EmptyString))
            else g !! "efiSystemPartitionSize"%string) ∧
       g' !! "efiSystemPartitionName"%string
         = (if contains configurationMap "efiSystemPartitionName"
            then Some (VString (CalamaresUtils.getString configurationMap
                                  "efiSystemPartitionName" EmptyString))
            else g !! "efiSystemPartitionName"%string) ∧
       (∀ key, key ∉ [ "firmwareType"; "efiSystemPartition"; "efiSystemPartitionSize";
                       "efiSystemPartitionName" ]%string →
               g' !! key = g !! key)).
Proof.
  split_and!.
  - apply fillGSConfigurationEFI_null.
  - intros gs. apply fillGSConfigurationEFI_no_store.
  - intros g Hg. rewrite (fillGSConfigurationEFI_eq _ _ _ Hg).
    eexists _, _. split; [reflexivity|]. split; [apply store_set_store|].
    split; [reflexivity|]. split; [reflexivity|].
    apply lookup_efi_keys.
Qed.

Lemma fillGSConfigurationEFI_effect_witness :
  ∃ w' g',
    fillGSConfigurationEFI addr ∅ world0 = Some (tt, w') ∧
    store w' = Some g' ∧
    g' !! "firmwareType"%string = Some (VString "bios") ∧
    g' !! "efiSystemPartition"%string = Some (VString "/boot/efi") ∧
    g' !! "efiSystemPartitionSize"%string = None.
Proof.
  destruct (proj2 (proj2 (fillGSConfigurationEFI_effect ∅ world0)) ∅ eq_refl)
    as (w' & g' & Hrun & Hstore & _ & _ & Hfw & Hesp & Hsize & _).
  exists w', g'. split_and!; [exact Hrun|exact Hstore|exact Hfw|exact Hesp|exact Hsize].
Defined.

(** ** The whole of setConfigurationMap *)

(** One of the two choice steps of a load, seen from outside. *)
Lemma choice_step_world (b : bool) (ic : InstallChoice) (sc : SwapChoice) (s : Signal)
    (w : World) (g : GlobalStorage) :
  store w = Some g →
  let w' := if b then publish ic sc (notify s w) else w in
  store w' = Some (if b then <[ "partitionChoices"%string :=
                                  partitionChoices_record ic sc ]> g else g) ∧
  emitted w' = emitted w ++ (if b then [s] else []) ∧
  isEfiSystem w' = isEfiSystem w.
Proof.
  intros Hg. destruct b; cbv zeta.
  - rewrite store_publish, emitted_publish, isEfiSystem_publish, store_notify, Hg. done.
  - by rewrite app_nil_r.
Qed.

Section LoadFacts.
Context `{QSetOrder}.

(** The applied swap choice is determined by the configuration. *)
Lemma applied_swap_choice_exists (configurationMap : QVariantMap) :
  ∃ c, applied_swap_choice configurationMap c.
Proof.
  unfold applied_swap_choice. cbv zeta.
  case_bool_decide; [by eexists|apply pickOne_total].
Qed.

Lemma applied_swap_choice_unique (configurationMap : QVariantMap) (c1 c2 : SwapChoice) :
  applied_swap_choice configurationMap c1 →
  applied_swap_choice configurationMap c2 → c1 = c2.
Proof.
  unfold applied_swap_choice. cbv zeta. case_bool_decide; congruence.
Qed.

(** A load in a world with a store, in full. *)
Lemma setConfigurationMap_loaded
    (configurationMap : QVariantMap) (c : SwapChoice) (this : Config)
    (w : World) (g : GlobalStorage) :
  store w = Some g →
  applied_swap_choice configurationMap c →
  ∃ w', setConfigurationMap configurationMap this w
          = Some (loaded_config configurationMap c this, w') ∧
        store w' = Some (loaded_store configurationMap c this (isEfiSystem w) g) ∧
        isEfiSystem w' = isEfiSystem w ∧
        emitted w' = emitted w ++ load_signals configurationMap c this.
Proof.
  intros Hg Hc. unfold applied_swap_choice in Hc. cbv zeta in Hc.
  unfold setConfigurationMap. cbv zeta.
  rewrite M_bind_eq, setInstallChoice_eq. cbv beta iota. simpl_config.
  fold (parsed_install_choice configurationMap).
  set (ic := parsed_install_choice configurationMap).
  set (parsed := fst (NamedEnumTable.find swapChoiceNames _)) in *.
  match goal with
  | |- context [if bool_decide (ic ≠ m_installChoice this) then ?a else w] =>
      destruct (choice_step_world (bool_decide (ic ≠ m_installChoice this)) ic
                  (m_swapChoice this) (installChoiceChanged ic) w g Hg)
        as (Hs1 & He1 & Hf1);
      set (w1 := if bool_decide (ic ≠ m_installChoice this) then a else w) in *
  end.
  clearbody w1.
  rewrite M_bind_eq.
  match goal with
  | |- context [set_initialSwapChoice parsed ?t] =>
      set (this2 := set_initialSwapChoice parsed t)
  end.
  match goal with
  | |- context [match ?step w1 with _ => _ end] =>
      assert (step w1 = Some (set_initialSwapChoice c this2, w1)) as ->
  end.
  { revert Hc.
    destruct (bool_decide (parsed ∈ getSwapChoices configurationMap));
      intros Hc; cbn [negb].
    - subst c. by rewrite M_ret_eq.
    - rewrite M_bind_eq, Hc. cbn [deref]. by rewrite M_ret_eq. }
  cbv beta iota. rewrite M_bind_eq, setSwapChoice_eq. cbv beta iota.
  subst this2. simpl_config.
  match goal with
  | |- context [if bool_decide (c ≠ m_swapChoice this) then ?a else w1] =>
      destruct (choice_step_world (bool_decide (c ≠ m_swapChoice this)) ic
                  c (swapChoiceChanged c) w1 _ Hs1)
        as (Hs2 & He2 & Hf2);
      set (w2 := if bool_decide (c ≠ m_swapChoice this) then a else w1) in *
  end.
  clearbody w2.
  rewrite M_bind_eq.
  unfold loaded_config, loaded_store, load_signals. cbv zeta. fold ic.
  destruct (contains configurationMap "availableFileSystemTypes");
    [destruct (CalamaresUtils.getStringList configurationMap
                 "availableFileSystemTypes" []) as [|first rest]|].
  2: rewrite M_bind_eq; unfold Q_EMIT; cbv beta iota.
  all: rewrite M_ret_eq; cbv beta iota.
  all: erewrite unchecked_globalStorage_some
         by (first [exact Hs2 | rewrite store_notify; exact Hs2]).
  all: rewrite M_bind_eq.
  all: erewrite GS_insert_eq by (first [exact Hs2 | rewrite store_notify; exact Hs2]).
  all: cbv beta iota; rewrite M_bind_eq.
  all: erewrite fillGSConfigurationEFI_eq by apply store_set_store.
  all: cbv beta iota; rewrite M_ret_eq.
  all: eexists; split; [reflexivity|].
  all: rewrite set_store_set_store, store_set_store.
  all: cbn [set_store isEfiSystem emitted notify].
  all: rewrite ?Hf2, ?Hf1, He2, He1, <- !app_assoc.
  all: rewrite ?app_nil_r; done.
Qed.
End LoadFacts.

(** X13. After a load (in a world with a store) the Config holds the resolved
    set, the initial and the current swap choice are the same, and that choice
    is one of the resolved set whenever the set is not empty; with an empty
    resolved set the choice is NoSwap. *)
Theorem load_swap_choice_offered `{QSetOrder}
    (configurationMap : QVariantMap) (this : Config) (w : World) (g : GlobalStorage) :
  store w = Some g →
  ∃ this' w',
    setConfigurationMap configurationMap this w = Some (this', w') ∧
    m_swapChoices this' = getSwapChoices configurationMap ∧
    m_initialSwapChoice this' = m_swapChoice this' ∧
    (m_swapChoices this' ≠ ∅ → m_swapChoice this' ∈ m_swapChoices this') ∧
    (m_swapChoices this' = ∅ → m_swapChoice this' = NoSwap).
Proof.
  intros Hg.
  destruct (applied_swap_choice_exists configurationMap) as [c Hc].
  destruct (setConfigurationMap_loaded configurationMap c this w g Hg Hc)
    as (w' & Hrun & _).
  exists (loaded_config configurationMap c this), w'.
  split; [exact Hrun|]. cbn [loaded_config m_swapChoices m_initialSwapChoice m_swapChoice].
  split; [done|]. split; [done|].
  unfold applied_swap_choice in Hc. cbv zeta in Hc. revert Hc.
  case_bool_decide as Hin; intros Hc.
  - subst c. split; [done|]. intros Hempty. rewrite Hempty in Hin.
    by apply elem_of_empty in Hin.
  - split.
    + intros Hne. by apply pickOne_elem.
    + intros Hempty. rewrite Hempty, pickOne_empty in Hc. by injection Hc.
Qed.

Lemma load_swap_choice_offered_witness :
  ∃ this' w',
    setConfigurationMap (H := elements_order) file_vs_suspend config0 world0
      = Some (this', w') ∧
    m_swapChoices this' = getSwapChoices file_vs_suspend ∧
    m_initialSwapChoice this' = m_swapChoice this' ∧
    (m_swapChoices this' ≠ ∅ → m_swapChoice this' ∈ m_swapChoices this') ∧
    (m_swapChoices this' = ∅ → m_swapChoice this' = NoSwap).
Proof.
  exact (load_swap_choice_offered (H := elements_order)
           file_vs_suspend config0 world0 ∅ eq_refl).
Defined.

(** X14. The Config left by a load depends on the configuration and on the
    erase-mode file-system members held before, and on nothing else of the
    earlier state: two loads of the same configuration from states that agree
    on those two members end in the same Config. *)
Theorem load_resets_config `{QSetOrder}
    (configurationMap : QVariantMap) (this1 this2 : Config) (w1 w2 : World)
    (g1 g2 : GlobalStorage) :
  store w1 = Some g1 →
  store w2 = Some g2 →
  m_eraseFsTypes this1 = m_eraseFsTypes this2 →
  m_eraseFsTypeChoice this1 = m_eraseFsTypeChoice this2 →
  ∃ this' w1' w2',
    setConfigurationMap configurationMap this1 w1 = Some (this', w1') ∧
    setConfigurationMap configurationMap this2 w2 = Some (this', w2').
Proof.
  intros Hg1 Hg2 Hfs Hfc.
  destruct (applied_swap_choice_exists configurationMap) as [c Hc].
  destruct (setConfigurationMap_loaded configurationMap c this1 w1 g1 Hg1 Hc)
    as (w1' & Hrun1 & _).
  destruct (setConfigurationMap_loaded configurationMap c this2 w2 g2 Hg2 Hc)
    as (w2' & Hrun2 & _).
  exists (loaded_config configurationMap c this1), w1', w2'.
  split; [exact Hrun1|]. rewrite Hrun2. do 2 f_equal.
  unfold loaded_config. by rewrite Hfs, Hfc.
Qed.

Lemma load_resets_config_witness :
  ∃ this' w1' w2',
    setConfigurationMap (H := elements_order) file_vs_suspend config0 world0
      = Some (this', w1') ∧
    setConfigurationMap (H := elements_order) file_vs_suspend
      (set_swapChoice SwapFile (set_installChoice Erase config0)) world0
      = Some (this', w2').
Proof.
  exact (load_resets_config (H := elements_order) file_vs_suspend
           config0 (set_swapChoice SwapFile (set_installChoice Erase config0))
           world0 world0 ∅ ∅ eq_refl eq_refl eq_refl eq_refl).
Defined.

(** Lookup by name in the install table. *)
Lemma find_installChoiceNames_ok (name : string) (v : InstallChoice) :
  NamedEnumTable.find installChoiceNames name = (v, true) ↔ (name, v) ∈ installChoiceNames.
Proof.
  unfold NamedEnumTable.find, installChoiceNames. split.
  - cbn [NamedEnumTable.find_entry].
    repeat match goal with
           | |- context [String.eqb name ?n] =>
               destruct (String.eqb_spec name n) as [->|?];
               [intros [= <-]; set_solver|]
           end.
    intros [=].
  - rewrite !elem_of_cons, elem_of_nil.
    intros [[= -> ->]|[[= -> ->]|[[= -> ->]|[[= -> ->]|[[= -> ->]|[[= -> ->]|[]]]]]]];
      reflexivity.
Qed.

Lemma find_installChoiceNames_unknown (name : string) :
  name ∉ installChoiceNames.*1 →
  NamedEnumTable.find installChoiceNames name = (NoChoice, false).
Proof.
  unfold NamedEnumTable.find, installChoiceNames.
  cbn [NamedEnumTable.find_entry fmap list_fmap fst].
  intros Hname.
  repeat match goal with
         | |- context [String.eqb name ?n] =>
             destruct (String.eqb_spec name n) as [->|?];
             [exfalso; apply Hname; set_solver|]
         end.
  reflexivity.
Qed.

(** X15. What a load leaves in the Config when a key is missing: without
    initialPartitioningChoice, or with a name outside the install table, the
    install choice is NoChoice; a name of the table gives its choice; and the
    initial install choice equals the current one.  Without requiredStorage
    the threshold is -1, without allowManualPartitioning manual partitioning
    is allowed, without requiredPartitionTableType the list is empty, and
    without availableFileSystemTypes the erase-mode members keep their
    values. *)
Theorem load_defaults `{QSetOrder}
    (configurationMap : QVariantMap) (this : Config) (w : World) (g : GlobalStorage) :
  store w = Some g →
  ∃ this' w',
    setConfigurationMap configurationMap this w = Some (this', w') ∧
    m_initialInstallChoice this' = m_installChoice this' ∧
    (∀ name v, configurationMap !! "initialPartitioningChoice"%string = Some (VString name) →
               (name, v) ∈ installChoiceNames → m_installChoice this' = v) ∧
    (∀ name, configurationMap !! "initialPartitioningChoice"%string = Some (VString name) →
             name ∉ installChoiceNames.*1 → m_installChoice this' = NoChoice) ∧
    (configurationMap !! "initialPartitioningChoice"%string = None →
     m_installChoice this' = NoChoice) ∧
    (configurationMap !! "requiredStorage"%string = None →
     m_requiredStorageGiB this' = (-1)%float) ∧
    (configurationMap !! "allowManualPartitioning"%string = None →
     m_allowManualPartitioning this' = true) ∧
    (configurationMap !! "requiredPartitionTableType"%string = None →
     m_requiredPartitionTableType this' = []) ∧
    (configurationMap !! "availableFileSystemTypes"%string = None →
     m_eraseFsTypes this' = m_eraseFsTypes this ∧
     m_eraseFsTypeChoice this' = m_eraseFsTypeChoice this).
Proof.
  intros Hg.
  destruct (applied_swap_choice_exists configurationMap) as [c Hc].
  destruct (setConfigurationMap_loaded configurationMap c this w g Hg Hc)
    as (w' & Hrun & _).
  exists (loaded_config configurationMap c this), w'.
  split; [exact Hrun|]. unfold loaded_config. simpl_config.
  unfold parsed_install_choice, CalamaresUtils.getString, CalamaresUtils.getDouble,
    CalamaresUtils.getBool, CalamaresUtils.getStringList.
  split_and!.
  - done.
  - intros name v -> Hv. apply find_installChoiceNames_ok in Hv. by rewrite Hv.
  - intros name -> Hname. by rewrite find_installChoiceNames_unknown.
  - by intros ->.
  - by intros ->.
  - by intros ->.
  - by intros ->.
  - intros Hnone. apply contains_false in Hnone. by rewrite Hnone.
Qed.

Lemma load_defaults_witness :
  ∃ this' w',
    setConfigurationMap (H := elements_order) choice_replace config0 world0
      = Some (this', w') ∧
    m_installChoice this' = Replace ∧
    m_requiredStorageGiB this' = (-1)%float ∧
    m_allowManualPartitioning this' = true.
Proof.
  destruct (load_defaults (H := elements_order) choice_replace config0 world0 ∅ eq_refl)
    as (this' & w' & Hrun & _ & Hnamed & _ & _ & Hstorage & Hmanual & _).
  exists this', w'. split_and!.
  - exact Hrun.
  - apply (Hnamed "replace"%string Replace); [reflexivity|].
    unfold installChoiceNames. set_solver.
  - apply Hstorage. reflexivity.
  - apply Hmanual. reflexivity.
Defined.

(** X16. The signals of a load, in order: installChoiceChanged if the install
    choice changes, then swapChoiceChanged if the swap choice changes, then
    eraseModeFilesystemChanged with the first configured file system whenever
    availableFileSystemTypes holds a non-empty list, also when that file
    system was the one already chosen.  Nothing else is emitted. *)
Theorem load_signals_in_order `{QSetOrder}
    (configurationMap : QVariantMap) (this : Config) (w : World) (g : GlobalStorage) :
  store w = Some g →
  ∃ this' w',
    setConfigurationMap configurationMap this w = Some (this', w') ∧
    emitted w' =
      emitted w ++
      (if bool_decide (m_installChoice this' ≠ m_installChoice this)
       then [ installChoiceChanged (m_installChoice this') ] else []) ++
      (if bool_decide (m_swapChoice this' ≠ m_swapChoice this)
       then [ swapChoiceChanged (m_swapChoice this') ] else []) ++
      (match configurationMap !! "availableFileSystemTypes"%string with
       | Some (VStringList (first :: _)) => [ eraseModeFilesystemChanged first ]
       | _ => []
       end).
Proof.
  intros Hg.
  destruct (applied_swap_choice_exists configurationMap) as [c Hc].
  destruct (setConfigurationMap_loaded configurationMap c this w g Hg Hc)
    as (w' & Hrun & _ & _ & Hem).
  exists (loaded_config configurationMap c this), w'.
  split; [exact Hrun|]. rewrite Hem. unfold load_signals, loaded_config. simpl_config.
  do 3 f_equal.
  unfold contains, CalamaresUtils.getStringList.
  destruct (configurationMap !! "availableFileSystemTypes"%string) as [[]|] eqn:Hfs.
  all: try (rewrite bool_decide_eq_true_2 by (by eexists)); try done.
Qed.

Lemma load_signals_in_order_witness :
  ∃ this' w',
    setConfigurationMap (H := elements_order) fs_ext4_btrfs
      (set_swapChoice FullSwap (set_eraseFsTypeChoice "ext4" config0)) world0
      = Some (this', w') ∧
    emitted w' = [ eraseModeFilesystemChanged "ext4" ].
Proof.
  destruct (load_signals_in_order (H := elements_order) fs_ext4_btrfs
              (set_swapChoice FullSwap (set_eraseFsTypeChoice "ext4" config0))
              world0 ∅ eq_refl)
    as (this' & w' & Hrun & Hem).
  exists this', w'. split; [exact Hrun|].
  rewrite Hem.
  assert (setConfigurationMap (H := elements_order) fs_ext4_btrfs
            (set_swapChoice FullSwap (set_eraseFsTypeChoice "ext4" config0)) world0
          = Some (this', w')) as Hrun' by exact Hrun.
  vm_compute in Hrun'. injection Hrun' as <- _. reflexivity.
Defined.

(** Lookups in the store that a load leaves. *)
Lemma lookup_loaded_store (configurationMap : QVariantMap) (c : SwapChoice) (this : Config)
    (efi : bool) (g : GlobalStorage) :
  let g' := loaded_store configurationMap c this efi g in
  let ic := parsed_install_choice configurationMap in
  g' !! "partitionChoices"%string
    = (if bool_decide (ic ≠ m_installChoice this) || bool_decide (c ≠ m_swapChoice this)
       then Some (partitionChoices_record ic c)
       else g !! "partitionChoices"%string) ∧
  g' !! "requiredPartitionTableType"%string
    = Some (VStringList (CalamaresUtils.getStringList configurationMap
                           "requiredPartitionTableType" [])) ∧
  (∀ key, key ∉ load_keys → g' !! key = g !! key).
Proof.
  cbv zeta. unfold loaded_store. cbv zeta.
  set (ic := parsed_install_choice configurationMap).
  destruct (lookup_efi_keys configurationMap efi
    (<[ "requiredPartitionTableType"%string :=
          VStringList (CalamaresUtils.getStringList configurationMap
                         "requiredPartitionTableType" []) ]>
       (if bool_decide (c ≠ m_swapChoice this)
        then <[ "partitionChoices"%string := partitionChoices_record ic c ]>
               (if bool_decide (ic ≠ m_installChoice this)
                then <[ "partitionChoices"%string :=
                          partitionChoices_record ic (m_swapChoice this) ]> g
                else g)
        else if bool_decide (ic ≠ m_installChoice this)
             then <[ "partitionChoices"%string :=
                       partitionChoices_record ic (m_swapChoice this) ]> g
             else g)))
    as (_ & _ & _ & _ & Hother).
  split_and!.
  - rewrite Hother by (rewrite !not_elem_of_cons; split_and!; first [done|apply not_elem_of_nil]).
    rewrite lookup_insert_ne by done.
    case_bool_decide as Hc; case_bool_decide as Hic; cbn [orb].
    + apply lookup_insert_eq.
    + apply lookup_insert_eq.
    + rewrite lookup_insert_eq.
      destruct (decide (c = m_swapChoice this)) as [->|]; done.
    + done.
  - rewrite Hother by (rewrite !not_elem_of_cons; split_and!; first [done|apply not_elem_of_nil]).
    apply lookup_insert_eq.
  - intros key Hkey. unfold load_keys in Hkey. rewrite !not_elem_of_cons in Hkey.
    destruct Hkey as (? & ? & ? & ? & ? & ? & _).
    rewrite Hother by (rewrite !not_elem_of_cons; split_and!; first [done|apply not_elem_of_nil]).
    rewrite lookup_insert_ne by done.
    repeat case_bool_decide; by rewrite ?lookup_insert_ne.
Qed.

(** X17. The store after a load: requiredPartitionTableType holds the list
    configured under that key (the empty list when the key is missing), which
    is also the member of the Config; firmwareType is "efi" or "bios" after
    the firmware probe, efiSystemPartition is the configured mount point or
    "/boot/efi"; partitionChoices holds the record of the two current choices
    (the install choice named by initialPartitioningChoice and the applied
    swap choice) if one of them changed and is left alone otherwise; and every
    key outside the six keys of a load, requiredStorageGiB among them, keeps
    its value. *)
Theorem load_store_contents `{QSetOrder}
    (configurationMap : QVariantMap) (this : Config) (w : World) (g : GlobalStorage) :
  store w = Some g →
  ∃ this' w' g',
    setConfigurationMap configurationMap this w = Some (this', w') ∧
    store w' = Some g' ∧
    g' !! "requiredPartitionTableType"%string
      = Some (VStringList (CalamaresUtils.getStringList configurationMap
                             "requiredPartitionTableType" [])) ∧
    (∀ l, configurationMap !! "requiredPartitionTableType"%string = Some (VStringList l) →
          g' !! "requiredPartitionTableType"%string = Some (VStringList l)) ∧
    (configurationMap !! "requiredPartitionTableType"%string = None →
     g' !! "requiredPartitionTableType"%string = Some (VStringList [])) ∧
    g' !! "requiredPartitionTableType"%string
      = Some (VStringList (m_requiredPartitionTableType this')) ∧
    g' !! "firmwareType"%string
      = Some (VString (if isEfiSystem w then "efi" else "bios")) ∧
    g' !! "efiSystemPartition"%string
      = Some (VString (CalamaresUtils.getString configurationMap
                         "efiSystemPartition" "/boot/efi")) ∧
    m_installChoice this' = parsed_install_choice configurationMap ∧
    applied_swap_choice configurationMap (m_swapChoice this') ∧
    g' !! "partitionChoices"%string
      = (if bool_decide (m_installChoice this' ≠ m_installChoice this)
            || bool_decide (m_swapChoice this' ≠ m_swapChoice this)
         then Some (partitionChoices_record (m_installChoice this') (m_swapChoice this'))
         else g !! "partitionChoices"%string) ∧
    (∀ key, key ∉ load_keys → g' !! key = g !! key) ∧
    g' !! "requiredStorageGiB"%string = g !! "requiredStorageGiB"%string.
Proof.
  intros Hg.
  destruct (applied_swap_choice_exists configurationMap) as [c Hc].
  destruct (setConfigurationMap_loaded configurationMap c this w g Hg Hc)
    as (w' & Hrun & Hstore & _).
  destruct (lookup_loaded_store configurationMap c this (isEfiSystem w) g)
    as (Hpc & Hrpt & Hother).
  exists (loaded_config configurationMap c this), w',
    (loaded_store configurationMap c this (isEfiSystem w) g).
  split; [exact Hrun|]. split; [exact Hstore|].
  unfold loaded_config. simpl_config.
  split; [exact Hrpt|].
  split.
  { intros l Hl. rewrite Hrpt. unfold CalamaresUtils.getStringList. by rewrite Hl. }
  split.
  { intros Hnone. rewrite Hrpt. unfold CalamaresUtils.getStringList. by rewrite Hnone. }
  split; [exact Hrpt|].
  unfold loaded_store at 1 2. cbv zeta.
  match goal with
  | |- context [efi_keys configurationMap (isEfiSystem w) ?g0] =>
      destruct (lookup_efi_keys configurationMap (isEfiSystem w) g0)
        as (Hfw & Hesp & _)
  end.
  split; [exact Hfw|]. split; [exact Hesp|].
  split; [reflexivity|]. split; [exact Hc|].
  split; [exact Hpc|]. split; [exact Hother|].
  apply Hother. unfold load_keys. rewrite !not_elem_of_cons.
  split_and!; first [done|apply not_elem_of_nil].
Qed.

Lemma load_store_contents_witness :
  ∃ this' w' g',
    setConfigurationMap (H := elements_order) table_gpt config0 world0
      = Some (this', w') ∧
    store w' = Some g' ∧
    g' !! "requiredPartitionTableType"%string = Some (VStringList [ "gpt"%string ]) ∧
    g' !! "firmwareType"%string = Some (VString "bios") ∧
    g' !! "requiredStorageGiB"%string = None.
Proof.
  destruct (load_store_contents (H := elements_order) table_gpt config0 world0 ∅ eq_refl)
    as (this' & w' & g' & Hrun & Hstore & _ & Hlist & _ & _ & Hfw & _ & _ & _ & _ & _ & Hrsg).
  exists this', w', g'. split_and!; [exact Hrun|exact Hstore| |exact Hfw|exact Hrsg].
  apply (Hlist [ "gpt"%string ]). reflexivity.
Defined.

(** ** Loading, then fillGSSecondaryConfiguration *)

(** X18. A load followed by [fillGSSecondaryConfiguration] completes in a
    world with a store, and requiredStorageGiB then holds: the value it had
    before, if it had one; otherwise the configured requiredStorage if that is
    a number not below zero; otherwise nothing.  Without the key
    requiredStorage nothing is ever published under requiredStorageGiB. *)
Theorem load_then_fill `{QSetOrder}
    (configurationMap : QVariantMap) (this : Config) (w : World) (g : GlobalStorage) :
  store w = Some g →
  ∃ w'' g'',
    (this' ← setConfigurationMap configurationMap this;
     fillGSSecondaryConfiguration this') w = Some (tt, w'') ∧
    store w'' = Some g'' ∧
    g'' !! "requiredStorageGiB"%string
      = match g !! "requiredStorageGiB"%string with
        | Some v => Some v
        | None =>
            match configurationMap !! "requiredStorage"%string with
            | Some (VDouble x) => if PrimFloat.leb 0%float x then Some (VDouble x) else None
            | _ => None
            end
        end.
Proof.
  intros Hg.
  destruct (applied_swap_choice_exists configurationMap) as [c Hc].
  destruct (setConfigurationMap_loaded configurationMap c this w g Hg Hc)
    as (w' & Hrun & Hstore & _).
  destruct (lookup_loaded_store configurationMap c this (isEfiSystem w) g)
    as (_ & _ & Hother).
  assert (loaded_store configurationMap c this (isEfiSystem w) g !! "requiredStorageGiB"%string
          = g !! "requiredStorageGiB"%string) as Hrsg.
  { apply Hother. unfold load_keys. rewrite !not_elem_of_cons.
    split_and!; first [done|apply not_elem_of_nil]. }
  rewrite M_bind_eq, Hrun. cbv beta iota.
  rewrite fillGSSecondaryConfiguration_eq, Hstore.
  unfold loaded_config at 1 2. simpl_config.
  unfold contains. rewrite Hrsg.
  destruct (g !! "requiredStorageGiB"%string) as [v|] eqn:Hold.
  - rewrite (bool_decide_eq_true_2 (is_Some (Some v))) by (by eexists).
    rewrite andb_false_r. eexists _, _. split; [reflexivity|].
    split; [exact Hstore|]. by rewrite Hrsg.
  - rewrite (bool_decide_eq_false_2 (is_Some None)) by (by intros [? ?]).
    rewrite andb_true_r. unfold CalamaresUtils.getDouble.
    destruct (configurationMap !! "requiredStorage"%string) as [[| |x| | |]|];
      try (eexists _, _; split; [reflexivity|]; split; [exact Hstore|];
           by rewrite Hrsg).
    destruct (PrimFloat.leb 0%float x).
    + eexists _, _. split; [reflexivity|]. split; [apply store_set_store|].
      apply lookup_insert_eq.
    + eexists _, _. split; [reflexivity|]. split; [exact Hstore|]. by rewrite Hrsg.
Qed.

Lemma load_then_fill_witness :
  ∃ w'' g'',
    (this' ← setConfigurationMap (H := elements_order) storage_8GiB config0;
     fillGSSecondaryConfiguration this') world0 = Some (tt, w'') ∧
    store w'' = Some g'' ∧
    g'' !! "requiredStorageGiB"%string = Some (VDouble 8%float).
Proof.
  exact (load_then_fill (H := elements_order) storage_8GiB config0 world0 ∅ eq_refl).
Defined.

(** ** Loading twice *)

Lemma efi_keys_again (configurationMap : QVariantMap) (efi : bool) (v : QVariant)
    (g : GlobalStorage) :
  efi_keys configurationMap efi
    (<[ "requiredPartitionTableType"%string := v ]>
       (efi_keys configurationMap efi (<[ "requiredPartitionTableType"%string := v ]> g)))
  = efi_keys configurationMap efi (<[ "requiredPartitionTableType"%string := v ]> g).
Proof.
  set (g1 := efi_keys configurationMap efi (<[ "requiredPartitionTableType"%string := v ]> g)).
  destruct (lookup_efi_keys configurationMap efi
              (<[ "requiredPartitionTableType"%string := v ]> g))
    as (Hfw & Hesp & Hsize & Hname & Hother).
  destruct (lookup_efi_keys configurationMap efi
              (<[ "requiredPartitionTableType"%string := v ]> g1))
    as (Hfw' & Hesp' & Hsize' & Hname' & Hother').
  fold g1 in Hfw, Hesp, Hsize, Hname, Hother.
  apply map_eq. intros key.
  destruct (decide (key = "firmwareType"%string)) as [->|]; [by rewrite Hfw, Hfw'|].
  destruct (decide (key = "efiSystemPartition"%string)) as [->|]; [by rewrite Hesp, Hesp'|].
  destruct (decide (key = "efiSystemPartitionSize"%string)) as [->|].
  { rewrite Hsize', Hsize.
    destruct (contains configurationMap "efiSystemPartitionSize"); [done|].
    rewrite lookup_insert_ne by done. rewrite Hsize.
    by destruct (contains configurationMap "efiSystemPartitionSize"). }
  destruct (decide (key = "efiSystemPartitionName"%string)) as [->|].
  { rewrite Hname', Hname.
    destruct (contains configurationMap "efiSystemPartitionName"); [done|].
    rewrite lookup_insert_ne by done. rewrite Hname.
    by destruct (contains configurationMap "efiSystemPartitionName"). }
  assert (key ∉ [ "firmwareType"; "efiSystemPartition"; "efiSystemPartitionSize";
                  "efiSystemPartitionName" ]%string) as Hkey.
  { rewrite !not_elem_of_cons. split_and!; first [done|apply not_elem_of_nil]. }
  rewrite (Hother' key Hkey), (Hother key Hkey).
  destruct (decide (key = "requiredPartitionTableType"%string)) as [->|].
  - by rewrite !lookup_insert_eq.
  - rewrite lookup_insert_ne by done. apply (Hother key Hkey).
Qed.

(** X19. Loading the same configuration a second time changes neither the
    Config object nor the store; all it does is emit
    eraseModeFilesystemChanged once more when availableFileSystemTypes holds a
    non-empty list. *)
Theorem load_twice `{QSetOrder}
    (configurationMap : QVariantMap) (this : Config) (w : World) (g : GlobalStorage) :
  store w = Some g →
  ∃ this' w' w'',
    setConfigurationMap configurationMap this w = Some (this', w') ∧
    setConfigurationMap configurationMap this' w' = Some (this', w'') ∧
    store w'' = store w' ∧
    emitted w'' =
      emitted w' ++
      (match configurationMap !! "availableFileSystemTypes"%string with
       | Some (VStringList (first :: _)) => [ eraseModeFilesystemChanged first ]
       | _ => []
       end).
Proof.
  intros Hg.
  destruct (applied_swap_choice_exists configurationMap) as [c Hc].
  destruct (setConfigurationMap_loaded configurationMap c this w g Hg Hc)
    as (w' & Hrun & Hstore & Hefi & _).
  destruct (setConfigurationMap_loaded configurationMap c
              (loaded_config configurationMap c this) w' _ Hstore Hc)
    as (w'' & Hrun2 & Hstore2 & _ & Hem2).
  assert (loaded_config configurationMap c (loaded_config configurationMap c this)
          = loaded_config configurationMap c this) as Hsame.
  { unfold loaded_config. simpl_config.
    destruct (contains configurationMap "availableFileSystemTypes"); [|done].
    by destruct (CalamaresUtils.getStringList configurationMap
                   "availableFileSystemTypes" []). }
  rewrite Hsame in Hrun2.
  exists (loaded_config configurationMap c this), w', w''.
  split; [exact Hrun|]. split; [exact Hrun2|]. split.
  - rewrite Hstore2, Hstore, Hefi. f_equal.
    unfold loaded_store at 1. cbv zeta. unfold loaded_config at 1 2 3. simpl_config.
    rewrite !bool_decide_eq_false_2 by (intros Hne; by apply Hne).
    unfold loaded_store. cbv zeta. apply efi_keys_again.
  - rewrite Hem2. f_equal. unfold load_signals, loaded_config. simpl_config.
    rewrite !bool_decide_eq_false_2 by (intros Hne; by apply Hne).
    cbn [app]. unfold contains, CalamaresUtils.getStringList.
    destruct (configurationMap !! "availableFileSystemTypes"%string) as [[]|] eqn:Hfs.
    all: try (rewrite bool_decide_eq_true_2 by (by eexists)); try done.
Qed.

Lemma load_twice_witness :
  ∃ this' w' w'',
    setConfigurationMap (H := elements_order) fs_ext4_btrfs config0 world0
      = Some (this', w') ∧
    setConfigurationMap (H := elements_order) fs_ext4_btrfs this' w' = Some (this', w'') ∧
    store w'' = store w' ∧
    emitted w'' = emitted w' ++ [ eraseModeFilesystemChanged "ext4" ].
Proof.
  exact (load_twice (H := elements_order) fs_ext4_btrfs config0 world0 ∅ eq_refl).
Defined.

(** ** fillGSSecondaryConfiguration, seen from the other modules *)

(** X20. [fillGSSecondaryConfiguration] emits no signal and only ever adds to
    the store: every entry the store had is still there with its value, and no
    key other than requiredStorageGiB is new. *)
Theorem fillGSSecondaryConfiguration_only_adds (this : Config) (w : World) :
  ∃ w', fillGSSecondaryConfiguration this w = Some (tt, w') ∧
        emitted w' = emitted w ∧
        isEfiSystem w' = isEfiSystem w ∧
        (store w = None → w' = w) ∧
        (∀ g, store w = Some g →
           ∃ g', store w' = Some g' ∧ g ⊆ g' ∧
                 ∀ key, key ≠ "requiredStorageGiB"%string → g' !! key = g !! key).
Proof.
  rewrite fillGSSecondaryConfiguration_eq. eexists. split; [reflexivity|].
  destruct (store w) as [g|] eqn:Hg; [|split_and!; done].
  destruct (PrimFloat.leb 0%float (m_requiredStorageGiB this)); cbn [andb].
  2: { split_and!; try done. intros g' [= <-]. by exists g. }
  destruct (contains g "requiredStorageGiB") eqn:Hc; cbn [negb].
  - split_and!; try done. intros g' [= <-]. by exists g.
  - apply contains_false in Hc. split_and!; try done.
    intros g' [= <-]. eexists. split; [apply store_set_store|]. split.
    + by apply insert_subseteq.
    + intros key Hkey. by rewrite lookup_insert_ne.
Qed.

(** ** The name tables, by name *)

Lemma find_swapChoiceNames_unknown (name : string) :
  name ∉ swapChoiceNames.*1 →
  NamedEnumTable.find swapChoiceNames name = (NoSwap, false).
Proof.
  unfold NamedEnumTable.find, swapChoiceNames.
  cbn [NamedEnumTable.find_entry fmap list_fmap fst].
  intros Hname.
  repeat match goal with
         | |- context [String.eqb name ?n] =>
             destruct (String.eqb_spec name n) as [->|?];
             [exfalso; apply Hname; set_solver|]
         end.
  reflexivity.
Qed.

(** X21. Looking a name up and looking the value found up again gives the
    name back for every name of the swap table and for every name of the
    install table except the alias "nochoice", which comes back as "none".  A
    name that is in neither table is answered with the first entry's value
    (NoChoice, NoSwap) and the flag cleared. *)
Theorem names_read_back :
  (∀ name v, (name, v) ∈ swapChoiceNames →
     NamedEnumTable.find swapChoiceNames name = (v, true) ∧
     NamedEnumTable.find_value swapChoiceNames v = (name, true)) ∧
  (∀ name v, (name, v) ∈ installChoiceNames →
     NamedEnumTable.find installChoiceNames name = (v, true) ∧
     NamedEnumTable.find_value installChoiceNames v
       = (if String.eqb name "nochoice" then "none"%string else name, true)) ∧
  (∀ name, name ∉ swapChoiceNames.*1 →
     NamedEnumTable.find swapChoiceNames name = (NoSwap, false)) ∧
  (∀ name, name ∉ installChoiceNames.*1 →
     NamedEnumTable.find installChoiceNames name = (NoChoice, false)).
Proof.
  split_and!.
  - intros name v Hin. split; [by apply find_swapChoiceNames_ok|].
    unfold swapChoiceNames in Hin. rewrite !elem_of_cons, elem_of_nil in Hin.
    destruct Hin as [[= -> ->]|[[= -> ->]|[[= -> ->]|[[= -> ->]|[[= -> ->]|[]]]]]];
      reflexivity.
  - intros name v Hin. split; [by apply find_installChoiceNames_ok|].
    unfold installChoiceNames in Hin. rewrite !elem_of_cons, elem_of_nil in Hin.
    destruct Hin
      as [[= -> ->]|[[= -> ->]|[[= -> ->]|[[= -> ->]|[[= -> ->]|[[= -> ->]|[]]]]]]];
      reflexivity.
  - apply find_swapChoiceNames_unknown.
  - apply find_installChoiceNames_unknown.
Qed.

Lemma names_read_back_witness :
  NamedEnumTable.find installChoiceNames "nochoice" = (NoChoice, true) ∧
  NamedEnumTable.find_value installChoiceNames NoChoice = ("none"%string, true).
Proof.
  apply (proj1 (proj2 names_read_back) "nochoice"%string NoChoice).
  unfold installChoiceNames. set_solver.
Defined.
